(** * Mailhop email worker: alias resolution and mail routing

    A shallow embedding of [workers/email/src/index.js].

    Strings are JavaScript strings whose code units lie below 256 (the
    Latin-1 range), represented by [string]; every [ascii] is one code
    unit.  On that range [String.prototype.toLowerCase] acts unit by unit
    and [String.prototype.trim] removes the units TAB, LF, VT, FF, CR, SP
    and NBSP.  Indices are [Z], as [indexOf] and [lastIndexOf] answer -1.

    The handler is asynchronous in the source but awaits every call in
    sequence; it is embedded as a computation in a writer/exception monad
    whose output is the list of external calls it made. *)

From Stdlib Require Import String Ascii List ZArith NArith Bool Lia.
Import ListNotations.

Open Scope string_scope.
Open Scope Z_scope.

(* ------------------------------------------------------------------ *)
(** ** JavaScript string primitives *)

Module JS.

Definition code (c : ascii) : N := N_of_ascii c.

(** WhiteSpace and LineTerminator code units below 256. *)
Definition isWhiteSpace (c : ascii) : bool :=
  let n := code c in
  ((9 <=? n) && (n <=? 13) || (n =? 32) || (n =? 160))%N.

(** Code units with a lower-case mapping: A-Z, and U+00C0..U+00DE
    without the multiplication sign U+00D7. *)
Definition isUpper (c : ascii) : bool :=
  let n := code c in
  ((65 <=? n) && (n <=? 90)
   || (192 <=? n) && (n <=? 222) && negb (n =? 215))%N.

Definition lowerUnit (c : ascii) : ascii :=
  if isUpper c then ascii_of_N (code c + 32) else c.

Fixpoint toLowerCase (s : string) : string :=
  match s with
  | EmptyString => EmptyString
  | String c r => String (lowerUnit c) (toLowerCase r)
  end.

Fixpoint trimStart (s : string) : string :=
  match s with
  | EmptyString => EmptyString
  | String c r => if isWhiteSpace c then trimStart r else s
  end.

Fixpoint trimEnd (s : string) : string :=
  match s with
  | EmptyString => EmptyString
  | String c r =>
      match trimEnd r with
      | EmptyString => if isWhiteSpace c then EmptyString else String c EmptyString
      | r' => String c r'
      end
  end.

Definition trim (s : string) : string := trimEnd (trimStart s).

Definition len (s : string) : Z := Z.of_nat (String.length s).

(** [s.indexOf(c)] for a one-unit needle: first position, or -1. *)
Fixpoint indexOf (c : ascii) (s : string) : Z :=
  match s with
  | EmptyString => -1
  | String d r =>
      if Ascii.eqb d c then 0
      else let i := indexOf c r in if i <? 0 then -1 else i + 1
  end.

(** [s.lastIndexOf(c)] for a one-unit needle: last position, or -1. *)
Fixpoint lastIndexOf (c : ascii) (s : string) : Z :=
  match s with
  | EmptyString => -1
  | String d r =>
      let i := lastIndexOf c r in
      if 0 <=? i then i + 1
      else if Ascii.eqb d c then 0 else -1
  end.

(** Relative index resolution of [slice]: a negative index counts from
    the end, and the result is clamped to [0, len]. *)
Definition clampIndex (n i : Z) : Z :=
  if i <? 0 then Z.max (n + i) 0 else Z.min i n.

(** [s.slice(from, to)]. *)
Definition slice (s : string) (from to : Z) : string :=
  let a := clampIndex (len s) from in
  let b := clampIndex (len s) to in
  substring (Z.to_nat a) (Z.to_nat (b - a)) s.

(** [s.slice(from)]. *)
Definition sliceFrom (s : string) (from : Z) : string :=
  slice s from (len s).

(** Truthiness of a string value: only the empty string is falsy. *)
Definition truthy (s : string) : bool :=
  match s with EmptyString => false | _ => true end.

(** [a || b] on strings. *)
Definition or_else (a b : string) : string := if truthy a then a else b.

(** Occurrence of a code unit in a string. *)
Fixpoint occurs (c : ascii) (s : string) : Prop :=
  match s with
  | EmptyString => False
  | String d r => d = c \/ occurs c r
  end.

(** The first unit, if any, is not white space. *)
Definition headOK (s : string) : Prop :=
  match s with
  | EmptyString => True
  | String c _ => isWhiteSpace c = false
  end.

End JS.

(* ------------------------------------------------------------------ *)
(** ** Utilities of the worker *)

(** [norm(s)]: [(s || "").trim().toLowerCase()]; on a string [s || ""]
    is [s]. *)
Definition norm (s : string) : string := JS.toLowerCase (JS.trim s).

Record Address := mkAddress { local : string; domain : string; full : string }.

Definition splitAddress (raw : string) : Address :=
  let full := norm raw in
  let at_ := JS.lastIndexOf "@" full in
  if at_ <? 1 then mkAddress "" "" full
  else mkAddress (JS.slice full 0 at_) (JS.sliceFrom full (at_ + 1)) full.

(* ------------------------------------------------------------------ *)
(** ** Bindings: the D1 database, the environment, the inbound message *)

(** A row of the [aliases] table, as the two SELECT statements read it. *)
Record Alias := mkAlias {
  address : string;
  forward_to : string;
  allow_plus : Z
}.

(** A row bound to the INSERT into [email_logs]; [None] is SQL NULL. *)
Module LogRow.
Record t := mk {
  ts : Z;
  message_id : option string;
  from_addr : option string;
  to_addr : option string;
  route : option string;
  base_addr : option string;
  dest_addr : option string;
  result : option string;
  size_bytes : Z;
  error : option string
}.
End LogRow.

(** The D1 binding: the content of [aliases], and which statements the
    database fails (a failed statement throws its error text). *)
Record D1 := mkD1 {
  aliases : list Alias;
  select_fault : string -> option string;
  insert_fault : LogRow.t -> option string
}.

(** [env]: the Wrangler variable [DOMAIN] ([None] when unset) and [DB]. *)
Record Env := mkEnv {
  DOMAIN : option string;
  DB : D1
}.

(** The inbound [EmailMessage]: its fields, its Message-Id header if any,
    and for which destinations [forward] throws. *)
Record EmailMessage := mkMessage {
  from : string;
  to : string;
  rawSize : Z;
  header_Message_Id : option string;
  forward_fault : string -> option string
}.

(** What the platform supplies besides: [crypto.randomUUID()] and
    [Date.now()] in milliseconds. *)
Record Runtime := mkRuntime {
  randomUUID : string;
  now : Z
}.

(** The object literal logged for a message: [msgMeta] spread with the
    fields of the branch; an absent property is [None]. *)
Module Entry.
Record t := mk {
  id : string;
  from : string;
  to : string;
  size : Z;
  domain : string;
  route : string;
  base : option string;
  dest : option string;
  result : string;
  error : option string
}.
End Entry.

(* ------------------------------------------------------------------ *)
(** ** Effects *)

(** The external calls of the handler, in the order they are made.
    [Insert] and [Forward] record whether the call returned normally. *)
Inductive Event :=
| Select (key : string)
| Console (e : Entry.t)
| Insert (row : LogRow.t) (ok : bool)
| Forward (dest : string) (ok : bool)
| SetReject (reason : string).

Inductive Completion (A : Type) :=
| Normal (a : A)
| Throw (err : string).
Arguments Normal {A} a.
Arguments Throw {A} err.

(** An awaited computation: its calls and how it completed. *)
Definition Async (A : Type) : Type := (list Event * Completion A)%type.

Definition ret {A} (a : A) : Async A := ([], Normal a).

Definition bind {A B} (m : Async A) (k : A -> Async B) : Async B :=
  match m with
  | (tr, Normal a) => let (tr', r) := k a in ((tr ++ tr')%list, r)
  | (tr, Throw e) => (tr, Throw e)
  end.

(** [try { m } catch (err) { h err }]. *)
Definition try_catch {A} (m : Async A) (h : string -> Async A) : Async A :=
  match m with
  | (tr, Normal a) => (tr, Normal a)
  | (tr, Throw e) => let (tr', r) := h e in ((tr ++ tr')%list, r)
  end.

Definition call (ev : Event) (fault : option string) : Async unit :=
  ([ev], match fault with Some e => Throw e | None => Normal tt end).

Notation "x <- m ;; k" := (bind m (fun x => k))
  (at level 61, m at next level, right associativity).
Notation "m ;; k" := (bind m (fun _ => k))
  (at level 61, right associativity).

Definition trace {A} (m : Async A) : list Event := fst m.
Definition completion {A} (m : Async A) : Completion A := snd m.

(* ------------------------------------------------------------------ *)
(** ** The worker *)

Definition getDomain (env : Env) : string :=
  let configured :=
    match DOMAIN env with
    | Some d => if JS.truthy d then norm d else ""
    | None => ""
    end in
  JS.or_else configured "example.com".

Definition isOurDomain (addr : string) (env : Env) : bool :=
  String.eqb (domain (splitAddress addr)) (getDomain env).

Definition wouldLoop (forwardTo : string) (env : Env) : bool :=
  isOurDomain forwardTo env.

(** [console.log(JSON.stringify({timestamp, ...data}))]. *)
Definition logEvent (data : Entry.t) : Async unit :=
  call (Console data) None.

(** [v || null] for a string property. *)
Definition or_null (v : string) : option string :=
  if JS.truthy v then Some v else None.

(** [v || null] for a property that may be absent. *)
Definition opt_or_null (v : option string) : option string :=
  match v with Some s => or_null s | None => None end.

Definition logRow (rt : Runtime) (entry : Entry.t) : LogRow.t :=
  LogRow.mk
    (now rt / 1000)
    (or_null (Entry.id entry))
    (or_null (Entry.from entry))
    (or_null (Entry.to entry))
    (or_null (Entry.route entry))
    (opt_or_null (Entry.base entry))
    (opt_or_null (Entry.dest entry))
    (or_null (Entry.result entry))
    (Entry.size entry)
    (match Entry.error entry with
     | Some e => if JS.truthy e then Some (JS.slice e 0 2000) else None
     | None => None
     end).

(** The INSERT statement of [persistLog], run against D1. *)
Definition insertLog (env : Env) (row : LogRow.t) : Async unit :=
  match insert_fault (DB env) row with
  | Some e => call (Insert row false) (Some e)
  | None => call (Insert row true) None
  end.

Definition persistLog (rt : Runtime) (env : Env) (entry : Entry.t) : Async unit :=
  try_catch (insertLog env (logRow rt entry)) (fun _ => ret tt).

(** The NOCASE collation that the schema declares for [aliases.address]:
    ASCII letters are compared without regard to case, every other unit
    as it is. *)
Module Sqlite.

Definition foldUnit (c : ascii) : ascii :=
  let n := JS.code c in
  if ((65 <=? n) && (n <=? 90))%N then ascii_of_N (n + 32) else c.

Fixpoint nocase (s : string) : string :=
  match s with
  | EmptyString => EmptyString
  | String c r => String (foldUnit c) (nocase r)
  end.

(** [a = b] on a NOCASE column. *)
Definition equal (a b : string) : bool := String.eqb (nocase a) (nocase b).

End Sqlite.

(** What [SELECT address, forward_to, allow_plus FROM aliases WHERE
    address = ? LIMIT 1] finds: the first row whose address equals the
    key under the column's NOCASE collation, or null. *)
Definition aliasOf (env : Env) (key : string) : option Alias :=
  find (fun r => Sqlite.equal (address r) key) (aliases (DB env)).

(** The statement prepared, bound to [key] and run with [.first()]. *)
Definition selectAlias (env : Env) (key : string) : Async (option Alias) :=
  _ <- call (Select key) (select_fault (DB env) key) ;;
  ret (aliasOf env key).

Definition forward (message : EmailMessage) (dest : string) : Async unit :=
  match forward_fault message dest with
  | Some e => call (Forward dest false) (Some e)
  | None => call (Forward dest true) None
  end.

Definition setReject (reason : string) : Async unit :=
  call (SetReject reason) None.

Definition msgMeta (rt : Runtime) (message : EmailMessage) (env : Env)
    (route : string) (base dest : option string) (result : string)
    (error : option string) : Entry.t :=
  Entry.mk
    (JS.or_else (match header_Message_Id message with Some h => h | None => "" end)
                (randomUUID rt))
    (from message) (to message) (rawSize message) (getDomain env)
    route base dest result error.

(** The branch shared by the exact and the plus-tag match: loop guard,
    then delivery.  [route] and [base] are the only differences between
    the two copies of this code in the source. *)
Definition deliver (rt : Runtime) (message : EmailMessage) (env : Env)
    (route : string) (base : option string) (row : Alias) : Async unit :=
  let entry := msgMeta rt message env route base (Some (forward_to row)) in
  if wouldLoop (forward_to row) env then
    let e := entry "rejected"
      (Some "routing loop detected (forward_to is in our own domain)") in
    logEvent e ;;
    persistLog rt env e ;;
    setReject "550 Routing loop detected"
  else
    try_catch
      (forward message (forward_to row) ;;
       let e := entry "forwarded" None in
       logEvent e ;;
       persistLog rt env e)
      (fun err =>
         let e := entry "error" (Some err) in
         logEvent e ;;
         persistLog rt env e ;;
         setReject "550 Destination not verified").

(** Step 3 of the handler: no match at all. *)
Definition noMatch (rt : Runtime) (message : EmailMessage) (env : Env) : Async unit :=
  let e := msgMeta rt message env "none" None None "rejected"
             (Some "no matching alias or plus-base alias found") in
  logEvent e ;;
  persistLog rt env e ;;
  setReject ("550 No such user at " ++ JS.or_else (getDomain env) "this domain").

(** The base address of plus addressing, when the local part has a plus. *)
Definition plusBase (rcpt : Address) : option string :=
  let plusIdx := JS.indexOf "+" (local rcpt) in
  if plusIdx >? -1 then
    let baseLocal := JS.slice (local rcpt) 0 plusIdx in
    Some (baseLocal ++ "@" ++ domain rcpt)
  else None.

(** The body of the outer [try]. *)
Definition route (rt : Runtime) (message : EmailMessage) (env : Env) : Async unit :=
  let rcpt := splitAddress (to message) in
  let domain_ := getDomain env in
  if negb (JS.truthy (local rcpt)) || negb (String.eqb (domain rcpt) domain_) then
    let e := msgMeta rt message env "invalid-domain" None None "rejected"
      (Some ("recipient domain " ++ JS.or_else (domain rcpt) "<none>"
             ++ " does not match worker domain " ++ domain_)) in
    logEvent e ;;
    persistLog rt env e ;;
    setReject "550 Invalid recipient for this domain"
  else
    exact_ <- selectAlias env (full rcpt) ;;
    match exact_ with
    | Some row => deliver rt message env "exact" None row
    | None =>
        match plusBase rcpt with
        | Some base =>
            baseRow <- selectAlias env base ;;
            match baseRow with
            | Some row =>
                if allow_plus row =? 1
                then deliver rt message env "base+tag" (Some base) row
                else noMatch rt message env
            | None => noMatch rt message env
            end
        | None => noMatch rt message env
        end
    end.

(** The body of the outer [catch]: the last-resort error handler. *)
Definition lastResort (rt : Runtime) (message : EmailMessage) (env : Env)
    (err : string) : Async unit :=
  let e := msgMeta rt message env "exception" None None "error" (Some err) in
  logEvent e ;;
  persistLog rt env e ;;
  setReject "550 Internal error".

(** The [email] handler: the routing above inside the outer [try]. *)
Definition email (rt : Runtime) (message : EmailMessage) (env : Env) : Async unit :=
  try_catch (route rt message env) (lastResort rt message env).

(* ------------------------------------------------------------------ *)
(** ** Observations on a run *)

(** Keys looked up in the alias store, in order. *)
Fixpoint lookups (tr : list Event) : list string :=
  match tr with
  | [] => []
  | Select k :: r => k :: lookups r
  | _ :: r => lookups r
  end.

(** Destinations [message.forward] was invoked with, successfully or not. *)
Fixpoint forwards (tr : list Event) : list string :=
  match tr with
  | [] => []
  | Forward d _ :: r => d :: forwards r
  | _ :: r => forwards r
  end.

(** Destinations for which [message.forward] returned normally. *)
Fixpoint forwarded (tr : list Event) : list string :=
  match tr with
  | [] => []
  | Forward d true :: r => d :: forwarded r
  | _ :: r => forwarded r
  end.

(** Arguments of [message.setReject]. *)
Fixpoint rejects (tr : list Event) : list string :=
  match tr with
  | [] => []
  | SetReject s :: r => s :: rejects r
  | _ :: r => rejects r
  end.

(** Rows the handler tried to write to [email_logs]. *)
Fixpoint inserts (tr : list Event) : list LogRow.t :=
  match tr with
  | [] => []
  | Insert row _ :: r => row :: inserts r
  | _ :: r => inserts r
  end.

(** Entries printed to the console. *)
Fixpoint consoles (tr : list Event) : list Entry.t :=
  match tr with
  | [] => []
  | Console e :: r => e :: consoles r
  | _ :: r => consoles r
  end.

(** The run with the success flag of every log write erased. *)
Definition attempt (ev : Event) : Event :=
  match ev with
  | Insert row _ => Insert row true
  | _ => ev
  end.

(** What the transport sees of a run: forwards and rejects. *)
Fixpoint transport (tr : list Event) : list Event :=
  match tr with
  | [] => []
  | Forward d ok :: r => Forward d ok :: transport r
  | SetReject s :: r => SetReject s :: transport r
  | _ :: r => transport r
  end.

(** The five classes of rejection and the text each is reported with. *)
Inductive Reason :=
| InvalidDomain
| RoutingLoop
| NoMatch
| DeliveryFailed
| InternalException.

Definition reasonText (workerDomain : string) (r : Reason) : string :=
  match r with
  | InvalidDomain => "Invalid recipient for this domain"
  | RoutingLoop => "Routing loop detected"
  | NoMatch => "No such user at " ++ workerDomain
  | DeliveryFailed => "Destination not verified"
  | InternalException => "Internal error"
  end.

Definition rejection (workerDomain : string) (r : Reason) : string :=
  "550 " ++ reasonText workerDomain r.

(** The recipient passes the sanity check of step 0. *)
Definition accepted (message : EmailMessage) (env : Env) : Prop :=
  local (splitAddress (to message)) <> ""
  /\ domain (splitAddress (to message)) = getDomain env.

(** The alias store answers the lookup of [key] with [r]. *)
Definition answers (env : Env) (key : string) (r : option Alias) : Prop :=
  select_fault (DB env) key = None /\ aliasOf env key = r.

(** The recipient resolves by exact match to [row]. *)
Definition resolvesExact (message : EmailMessage) (env : Env) (row : Alias) : Prop :=
  accepted message env
  /\ answers env (full (splitAddress (to message))) (Some row).

(** The recipient resolves by plus addressing to [row], the alias of
    [base]. *)
Definition resolvesBaseTag (message : EmailMessage) (env : Env)
    (base : string) (row : Alias) : Prop :=
  accepted message env
  /\ answers env (full (splitAddress (to message))) None
  /\ plusBase (splitAddress (to message)) = Some base
  /\ answers env base (Some row)
  /\ allow_plus row = 1.

(** The log write of [row] succeeds. *)
Definition insert_ok (env : Env) (row : LogRow.t) : bool :=
  match insert_fault (DB env) row with Some _ => false | None => true end.

(** The two calls every branch makes to log its entry. *)
Definition logged (rt : Runtime) (env : Env) (e : Entry.t) : list Event :=
  [Console e; Insert (logRow rt e) (insert_ok env (logRow rt e))].

(** [env] with another failure behaviour of the log write. *)
Definition with_insert_fault (env : Env) (f : LogRow.t -> option string) : Env :=
  mkEnv (DOMAIN env) (mkD1 (aliases (DB env)) (select_fault (DB env)) f).

(** The three forms a completed run takes: some lookups, then either a
    logged rejection, a forward that is then logged, or a failed forward
    that is logged and rejected. *)
Inductive Shape (rt : Runtime) (env : Env) : Async unit -> Prop :=
| ShapeRejected (keys : list string) (e : Entry.t) (r : Reason) :
    r <> DeliveryFailed ->
    Shape rt env
      ((map Select keys ++ logged rt env e
          ++ [SetReject (rejection (getDomain env) r)])%list, Normal tt)
| ShapeForwarded (keys : list string) (e : Entry.t) (dest : string) :
    Shape rt env
      ((map Select keys ++ Forward dest true :: logged rt env e)%list, Normal tt)
| ShapeFailed (keys : list string) (e : Entry.t) (dest : string) :
    Shape rt env
      ((map Select keys ++ Forward dest false :: logged rt env e
          ++ [SetReject (rejection (getDomain env) DeliveryFailed)])%list,
       Normal tt).

(** Two runs that differ at most in whether their log writes succeeded. *)
Definition same_but_log {A : Type} (m m' : Async A) : Prop :=
  map attempt (trace m) = map attempt (trace m')
  /\ completion m = completion m'.

(** The base address as the resolver's step 3 words it: the local part
    cut at its last plus, then [@] and the domain. *)
Definition base_at_last_plus (rcpt : Address) : string :=
  JS.slice (local rcpt) 0 (JS.lastIndexOf "+" (local rcpt))
  ++ "@" ++ domain rcpt.

(** The store holds an alias for the plus-tag base of the recipient, and
    that alias allows plus addressing. *)
Definition plusEnabled (message : EmailMessage) (env : Env)
    (base : string) (row : Alias) : Prop :=
  plusBase (splitAddress (to message)) = Some base
  /\ aliasOf env base = Some row
  /\ allow_plus row = 1.

(** Sample bindings: a platform, a database that never fails, an inbound
    message whose forward never fails. *)
Definition no_fault {A : Type} (_ : A) : option string := None.

Definition sampleRuntime : Runtime :=
  mkRuntime "3f0c5e0a-7d7b-4c53-9a56-0d9c1b1f2e11" 1730000000000.

Definition sampleEnv (rows : list Alias) : Env :=
  mkEnv (Some "example.com") (mkD1 rows no_fault no_fault).

Definition inbound (rcpt : string) : EmailMessage :=
  mkMessage "sender@remote.test" rcpt 2048 (Some "<m1@remote.test>") no_fault.

(** All units of [s] are white space. *)
Fixpoint blank (s : string) : Prop :=
  match s with
  | EmptyString => True
  | String c r => JS.isWhiteSpace c = true /\ blank r
  end.

(** Neither the first nor the last unit of [s] is white space. *)
Definition trimmed (s : string) : Prop :=
  forall c r, (s = String c r \/ s = r ++ String c "") -> JS.isWhiteSpace c = false.

(* ------------------------------------------------------------------ *)
(** ** Further observations on a run *)

(** How a run ends once its lookups are done: the forward call if there
    is one, the entry that is logged, and the rejection if there is
    one. *)
Inductive Ending (workerDomain : string) :
    list Event -> Entry.t -> list Event -> Prop :=
| EndForwarded (e : Entry.t) (d : string) :
    Entry.result e = "forwarded" ->
    Entry.dest e = Some d ->
    Entry.error e = None ->
    Ending workerDomain [Forward d true] e []
| EndUndelivered (e : Entry.t) (d err : string) :
    Entry.result e = "error" ->
    Entry.dest e = Some d ->
    Entry.error e = Some err ->
    Ending workerDomain [Forward d false] e
      [SetReject (rejection workerDomain DeliveryFailed)]
| EndRejected (e : Entry.t) (r : Reason) (err : string) :
    r <> DeliveryFailed -> r <> InternalException ->
    Entry.result e = "rejected" ->
    Entry.error e = Some err ->
    Ending workerDomain [] e [SetReject (rejection workerDomain r)]
| EndException (e : Entry.t) (err : string) :
    Entry.route e = "exception" ->
    Entry.result e = "error" ->
    Entry.dest e = None ->
    Entry.error e = Some err ->
    Ending workerDomain [] e [SetReject (rejection workerDomain InternalException)].

(** The same message addressed to [t]. *)
Definition retarget (message : EmailMessage) (t : string) : EmailMessage :=
  mkMessage (from message) t (rawSize message) (header_Message_Id message)
    (forward_fault message).

(** A call with the raw recipient and the outcome of the log write
    blanked out of what is logged. *)
Definition blind_to (ev : Event) : Event :=
  match ev with
  | Console e =>
      Console (Entry.mk (Entry.id e) (Entry.from e) "" (Entry.size e)
                 (Entry.domain e) (Entry.route e) (Entry.base e)
                 (Entry.dest e) (Entry.result e) (Entry.error e))
  | Insert row _ =>
      Insert (LogRow.mk (LogRow.ts row) (LogRow.message_id row)
                (LogRow.from_addr row) None (LogRow.route row)
                (LogRow.base_addr row) (LogRow.dest_addr row)
                (LogRow.result row) (LogRow.size_bytes row)
                (LogRow.error row)) true
  | _ => ev
  end.

(** Two runs that make the same calls once each call is passed through
    [f], and complete alike. *)
Definition alike {A : Type} (f : Event -> Event) (m m' : Async A) : Prop :=
  map f (trace m) = map f (trace m') /\ completion m = completion m'.

(* ------------------------------------------------------------------ *)
(** ** The API worker: creating aliases, listing logs *)

Module Api.

(** A value read from a JSON request body; [Undefined] stands for a
    property that is absent.  Numbers are integers here; arrays and
    objects are [Compound]. *)
Inductive Json :=
| Undefined
| Null
| Bool (b : bool)
| Num (n : Z)
| Str (s : string)
| Compound.

(** Truthiness of a value. *)
Definition truthy (v : Json) : bool :=
  match v with
  | Undefined | Null => false
  | Bool b => b
  | Num n => negb (n =? 0)
  | Str s => JS.truthy s
  | Compound => true
  end.

(** What a handler can throw: the error of [readJSON] (status 400), a
    TypeError of the engine, an error of the database. *)
Inductive Error :=
| InvalidJsonBody
| TypeError
| DbError (msg : string).

Inductive Outcome (A : Type) :=
| Returned (a : A)
| Thrown (e : Error).
Arguments Returned {A} a.
Arguments Thrown {A} e.

(** [toEmail(s)]: [(s || "").trim().toLowerCase()].  A truthy value that
    is not a string has no [trim]: calling it is a TypeError. *)
Definition toEmail (s : Json) : Outcome string :=
  if truthy s then
    match s with
    | Str x => Returned (norm x)
    | _ => Thrown TypeError
    end
  else Returned (norm "").

(** [s.includes(c)] for a one-unit needle. *)
Fixpoint includes (c : ascii) (s : string) : bool :=
  match s with
  | EmptyString => false
  | String d r => Ascii.eqb d c || includes c r
  end.

(** A row of [aliases] as the API writes it (the [id] is assigned by the
    database and not modelled): the three columns the email worker
    reads, and [notes] and [created_at]. *)
Record AliasRecord := mkRecord {
  alias : Alias;
  notes : option string;
  created_at : Z
}.

Definition Table := list AliasRecord.

(** Some stored address equals [key] under the NOCASE collation of the
    [address] column. *)
Definition clashes (key : string) (t : Table) : bool :=
  existsb (fun r => Sqlite.equal (address (alias r)) key) t.

(** [INSERT INTO aliases (address, forward_to, notes, created_at,
    allow_plus) VALUES (?, ?, ?, ?, ?)]: fails when the database does
    ([fault]) or when the address is taken (UNIQUE); otherwise the row is
    added. *)
Definition insertAlias (fault : option string) (t : Table) (r : AliasRecord) :
    Outcome Table :=
  match fault with
  | Some e => Thrown (DbError e)
  | None =>
      if clashes (address (alias r)) t
      then Thrown (DbError "UNIQUE constraint failed: aliases.address")
      else Returned (t ++ [r])%list
  end.

(** The parsed body of a request: not JSON at all, the JSON [null], or
    any other value, given by the four properties the handler reads. *)
Inductive Body :=
| Malformed
| JsonNull
| Props (address forward_to notes allow_plus : Json).

(** The response of [createAlias]: the success object (status 200), or
    [{error}] with a status. *)
Inductive Reply :=
| Created (address forward_to : string) (notes : option string) (allow_plus : Z)
| Failure (status : Z) (error : string).

(** [createAlias(env, request)]: the response or the error thrown, and
    the table afterwards. *)
Definition createAlias (rt : Runtime) (fault : option string) (t : Table)
    (body : Body) : Outcome Reply * Table :=
  match body with
  | Malformed => (Thrown InvalidJsonBody, t)
  | JsonNull => (Thrown TypeError, t)
  | Props d_address d_forward_to d_notes d_allow_plus =>
      match toEmail d_address with
      | Thrown e => (Thrown e, t)
      | Returned address =>
          match toEmail d_forward_to with
          | Thrown e => (Thrown e, t)
          | Returned forward_to =>
              let notes := match d_notes with Str s => Some s | _ => None end in
              let allow_plus :=
                match d_allow_plus with
                | Undefined => 1
                | v => if truthy v then 1 else 0
                end in
              if negb (JS.truthy address) || negb (JS.truthy forward_to) then
                (Returned (Failure 400 "address and forward_to are required"), t)
              else if negb (includes "@" address) || negb (includes "@" forward_to) then
                (Returned (Failure 400 "Invalid email address"), t)
              else
                match insertAlias fault t
                        (mkRecord (mkAlias address forward_to allow_plus) notes
                           (now rt / 1000)) with
                | Returned t' =>
                    (Returned (Created address forward_to notes allow_plus), t')
                | Thrown _ => (Returned (Failure 409 "Alias already exists"), t)
                end
          end
      end
  end.

(** The value of a JavaScript number, as far as the handlers below look
    at it: not a number, infinite, or the integer it stands for. *)
Inductive Number :=
| NaN
| Infinite
| Finite (n : Z).

Definition digit (c : ascii) : option Z :=
  let n := JS.code c in
  if ((48 <=? n) && (n <=? 57))%N then Some (Z.of_N n - 48) else None.

(** The value of the longest prefix of decimal digits, if not empty. *)
Fixpoint digits (s : string) (acc : option Z) : option Z :=
  match s with
  | EmptyString => acc
  | String c r =>
      match digit c with
      | Some d => digits r (Some (10 * match acc with Some a => a | None => 0 end + d))
      | None => acc
      end
  end.

(** From here on a decimal numeral rounds to an infinite double. *)
Definition overflow : Z := 2 ^ 1024 - 2 ^ 970.

(** [Number.parseInt(s, 10)]: leading white space, a sign, then as many
    decimal digits as there are. *)
Definition parseInt (s : string) : Number :=
  let t := JS.trimStart s in
  let signed :=
    match t with
    | String "-" r => (true, r)
    | String "+" r => (false, r)
    | _ => (false, t)
    end in
  match digits (snd signed) None with
  | None => NaN
  | Some v =>
      if overflow <=? v then Infinite
      else Finite (if fst signed then - v else v)
  end.

(** The LIMIT that [listEmailLogs] binds, from the [limit] parameter of
    the URL ([None] when it is absent). *)
Definition logLimit (rawLimit : option string) : Z :=
  let limit :=
    parseInt (JS.or_else (match rawLimit with Some s => s | None => "" end) "50") in
  let limit :=
    match limit with
    | Finite n => if n <=? 0 then 50 else n
    | _ => 50
    end in
  if 500 <? limit then 500 else limit.

(** The table as the email worker's SELECT sees it. *)
Definition aliasRows (t : Table) : list Alias := map alias t.

(** The invariant of a table filled through [createAlias]: addresses in
    normal form, with an [@], flags 0 or 1, no address twice. *)
Definition wellFormed (t : Table) : Prop :=
  Forall (fun r =>
            norm (address (alias r)) = address (alias r)
            /\ norm (forward_to (alias r)) = forward_to (alias r)
            /\ JS.occurs "@" (address (alias r))
            /\ JS.occurs "@" (forward_to (alias r))
            /\ (allow_plus (alias r) = 0 \/ allow_plus (alias r) = 1)) t
  /\ NoDup (map (fun r => address (alias r)) t).

End Api.

(* ------------------------------------------------------------------ *)
(** ** The command-line tool: flags of [mailhop update] *)

Module Cli.








End Cli.

(* ================================================================== *)
(** * Properties of the string primitives *)

Module JSFacts.
Import JS.

Lemma lowerUnit_idem (c : ascii) : lowerUnit (lowerUnit c) = lowerUnit c.
Proof. destruct c as [[] [] [] [] [] [] [] []]; reflexivity. Qed.

Lemma isWhiteSpace_lowerUnit (c : ascii) :
  isWhiteSpace (lowerUnit c) = isWhiteSpace c.
Proof. destruct c as [[] [] [] [] [] [] [] []]; reflexivity. Qed.

Lemma lowerUnit_at (c : ascii) : lowerUnit c = "@"%char -> c = "@"%char.
Proof. destruct c as [[] [] [] [] [] [] [] []]; vm_compute; congruence. Qed.

Lemma toLowerCase_idem (s : string) : toLowerCase (toLowerCase s) = toLowerCase s.
Proof.
  induction s as [|c r IH]; simpl; [reflexivity|].
  now rewrite lowerUnit_idem, IH.
Qed.

Lemma trimStart_toLowerCase (s : string) :
  trimStart (toLowerCase s) = toLowerCase (trimStart s).
Proof.
  induction s as [|c r IH]; simpl; [reflexivity|].
  rewrite isWhiteSpace_lowerUnit.
  destruct (isWhiteSpace c); [exact IH | reflexivity].
Qed.

Lemma trimEnd_toLowerCase (s : string) :
  trimEnd (toLowerCase s) = toLowerCase (trimEnd s).
Proof.
  induction s as [|c r IH]; simpl; [reflexivity|].
  rewrite IH, isWhiteSpace_lowerUnit.
  destruct (trimEnd r); simpl; [destruct (isWhiteSpace c)|]; reflexivity.
Qed.

Lemma trim_toLowerCase (s : string) : trim (toLowerCase s) = toLowerCase (trim s).
Proof. unfold trim. now rewrite trimStart_toLowerCase, trimEnd_toLowerCase. Qed.

Lemma trimEnd_idem (s : string) : trimEnd (trimEnd s) = trimEnd s.
Proof.
  induction s as [|c r IH]; simpl; [reflexivity|].
  destruct (trimEnd r) as [|d r'] eqn:E.
  - destruct (isWhiteSpace c) eqn:W; simpl; [reflexivity | now rewrite W].
  - change (trimEnd (String c (String d r'))) with
      (match trimEnd (String d r') with
       | EmptyString => if isWhiteSpace c then EmptyString else String c EmptyString
       | x => String c x
       end).
    now rewrite IH.
Qed.

Lemma headOK_trimStart (s : string) : headOK (trimStart s).
Proof.
  induction s as [|c r IH]; simpl; [exact I|].
  destruct (isWhiteSpace c) eqn:W; [exact IH | exact W].
Qed.

Lemma headOK_trimEnd (s : string) : headOK s -> headOK (trimEnd s).
Proof.
  destruct s as [|c r]; simpl; [trivial|]. intros W.
  destruct (trimEnd r); [rewrite W|]; exact W.
Qed.

Lemma trimStart_headOK (s : string) : headOK s -> trimStart s = s.
Proof. destruct s as [|c r]; simpl; [trivial|]. now intros ->. Qed.

Lemma trim_idem (s : string) : trim (trim s) = trim s.
Proof.
  unfold trim.
  rewrite (trimStart_headOK (trimEnd (trimStart s))).
  - apply trimEnd_idem.
  - apply headOK_trimEnd, headOK_trimStart.
Qed.

Lemma trimStart_split (s : string) :
  exists pre, blank pre /\ s = pre ++ trimStart s.
Proof.
  induction s as [|c r [pre [B E]]]; simpl.
  - now exists "".
  - destruct (isWhiteSpace c) eqn:W.
    + exists (String c pre). simpl. split; [now split | now rewrite <- E].
    + now exists "".
Qed.

Lemma trimEnd_split (s : string) :
  exists post, blank post /\ s = trimEnd s ++ post.
Proof.
  induction s as [|c r [post [B E]]]; simpl.
  - now exists "".
  - destruct (trimEnd r) as [|d r'] eqn:T.
    + simpl in E. subst post. destruct (isWhiteSpace c) eqn:W.
      * exists (String c r). simpl. now repeat split.
      * now exists r.
    + exists post. split; [exact B|]. simpl. f_equal. exact E.
Qed.

Lemma snoc_inv (r : string) (c d : ascii) :
  r ++ String c "" = String d "" -> r = "" /\ c = d.
Proof.
  destruct r as [|x r]; simpl; intros H.
  - now inversion H.
  - inversion H as [[Hx Hr]]. destruct r; discriminate.
Qed.

Lemma lastOK_trimEnd (s : string) :
  forall c r, trimEnd s = r ++ String c "" -> isWhiteSpace c = false.
Proof.
  induction s as [|d t IH]; simpl; intros c r H.
  - destruct r; discriminate.
  - destruct (trimEnd t) as [|e t'] eqn:T.
    + destruct (isWhiteSpace d) eqn:W.
      * destruct r; discriminate.
      * symmetry in H. apply snoc_inv in H as [_ ->]. exact W.
    + destruct r as [|x r1]; simpl in H; [discriminate|].
      inversion H as [[Hx Hr]]. eapply IH. exact Hr.
Qed.

Lemma trimmed_trim (s : string) : trimmed (trim s).
Proof.
  intros c r [H | H].
  - pose proof (headOK_trimEnd _ (headOK_trimStart s)) as K.
    unfold trim in H. now rewrite H in K.
  - eapply lastOK_trimEnd. exact H.
Qed.

Lemma append_assoc (a b c : string) : (a ++ b) ++ c = a ++ b ++ c.
Proof. induction a as [|x a IH]; simpl; [reflexivity | now rewrite IH]. Qed.

Lemma trim_split (s : string) :
  exists pre post, blank pre /\ blank post /\ s = pre ++ trim s ++ post.
Proof.
  destruct (trimStart_split s) as [pre [Bp Ep]].
  destruct (trimEnd_split (trimStart s)) as [post [Bq Eq]].
  exists pre, post. repeat split; trivial.
  unfold trim. now rewrite <- Eq.
Qed.

Lemma length_toLowerCase (s : string) :
  String.length (toLowerCase s) = String.length s.
Proof. induction s; simpl; congruence. Qed.

(** *** Occurrences *)

Lemma occurs_append (c : ascii) (a b : string) :
  occurs c (a ++ b) <-> occurs c a \/ occurs c b.
Proof. induction a as [|x a IH]; simpl; tauto. Qed.

Lemma occurs_at_toLowerCase (s : string) :
  occurs "@" (toLowerCase s) -> occurs "@" s.
Proof.
  induction s as [|c r IH]; simpl; [trivial|].
  intros [H | H]; [left; now apply lowerUnit_at | right; auto].
Qed.

Lemma occurs_trim (c : ascii) (s : string) : occurs c (trim s) -> occurs c s.
Proof.
  destruct (trim_split s) as [pre [post [_ [_ E]]]]. intros H.
  rewrite E, !occurs_append. tauto.
Qed.

Lemma occurs_dec (c : ascii) (s : string) : {occurs c s} + {~ occurs c s}.
Proof.
  induction s as [|d r [IH | IH]]; simpl.
  - now right.
  - left; now right.
  - destruct (ascii_dec d c) as [E | N]; [left; now left | right; tauto].
Qed.

(** *** Lengths and slices *)

Lemma len_nonneg (s : string) : 0 <= len s.
Proof. unfold len; lia. Qed.

Lemma len_cons (c : ascii) (s : string) : len (String c s) = len s + 1.
Proof. unfold len; simpl String.length; lia. Qed.

Lemma len_append (a b : string) : len (a ++ b) = len a + len b.
Proof.
  induction a as [|x a IH]; [reflexivity|].
  simpl append. rewrite !len_cons, IH. lia.
Qed.

Lemma substring_all (s : string) : substring 0 (String.length s) s = s.
Proof. induction s; simpl; congruence. Qed.

Lemma substring_prefix (p r : string) :
  substring 0 (String.length p) (p ++ r) = p.
Proof.
  induction p as [|x p IH]; simpl; [now destruct r | now rewrite IH].
Qed.

Lemma substring_suffix (p q : string) :
  substring (String.length p) (String.length q) (p ++ q) = q.
Proof. induction p as [|x p IH]; simpl; [apply substring_all | exact IH]. Qed.

Lemma slice_prefix (p r : string) : slice (p ++ r) 0 (len p) = p.
Proof.
  unfold slice, clampIndex. rewrite len_append.
  pose proof (len_nonneg p). pose proof (len_nonneg r).
  destruct (0 <? 0) eqn:E0; [lia|].
  destruct (len p <? 0) eqn:E1; [lia|].
  rewrite (Z.min_l 0), (Z.min_l (len p)) by lia.
  rewrite Z.sub_0_r. unfold len. rewrite Nat2Z.id.
  apply substring_prefix.
Qed.

Lemma sliceFrom_suffix (p q : string) : sliceFrom (p ++ q) (len p) = q.
Proof.
  unfold sliceFrom, slice, clampIndex. rewrite len_append.
  pose proof (len_nonneg p). pose proof (len_nonneg q).
  destruct (len p <? 0) eqn:E1; [lia|].
  destruct (len p + len q <? 0) eqn:E2; [lia|].
  rewrite (Z.min_l (len p)), Z.min_id by lia.
  replace (len p + len q - len p) with (len q) by lia.
  unfold len. rewrite !Nat2Z.id.
  apply substring_suffix.
Qed.

(** *** [indexOf] and [lastIndexOf] *)

Lemma lastIndexOf_lower (c : ascii) (s : string) : -1 <= lastIndexOf c s.
Proof.
  induction s as [|d r IH]; simpl; [lia|].
  destruct (0 <=? lastIndexOf c r) eqn:E; [lia|].
  destruct (Ascii.eqb d c); lia.
Qed.

Lemma lastIndexOf_absent (c : ascii) (s : string) :
  ~ occurs c s -> lastIndexOf c s = -1.
Proof.
  induction s as [|d r IH]; simpl; [reflexivity|]. intros N.
  rewrite IH by tauto. simpl.
  destruct (Ascii.eqb_spec d c); [tauto | reflexivity].
Qed.

Lemma lastIndexOf_split (c : ascii) (p q : string) :
  ~ occurs c q -> lastIndexOf c (p ++ String c q) = len p.
Proof.
  intros N. induction p as [|x p IH].
  - simpl. rewrite (lastIndexOf_absent _ _ N). simpl.
    now rewrite Ascii.eqb_refl.
  - simpl append. simpl lastIndexOf. rewrite IH, len_cons.
    pose proof (len_nonneg p).
    destruct (0 <=? len p) eqn:E; [reflexivity | lia].
Qed.

Lemma lastIndexOf_found (c : ascii) (s : string) :
  0 <= lastIndexOf c s ->
  exists p q, s = p ++ String c q /\ ~ occurs c q /\ lastIndexOf c s = len p.
Proof.
  induction s as [|d r IH]; simpl; [lia|].
  destruct (0 <=? lastIndexOf c r) eqn:E.
  - intros _. destruct IH as [p [q [Es [N L]]]]; [lia|].
    exists (String d p), q. rewrite len_cons, L, Es. now repeat split.
  - destruct (Ascii.eqb_spec d c) as [-> | Ne]; [|lia]. intros _.
    exists "", r. repeat split.
    intros O. destruct (occurs_dec c r) as [_ | N]; [|tauto].
    clear IH. revert E. induction r as [|y r IHr]; simpl in *; [tauto|].
    destruct (0 <=? lastIndexOf c r) eqn:E'.
    + pose proof (lastIndexOf_lower c r). lia.
    + destruct (Ascii.eqb_spec y c); [lia|].
      intros _. destruct O as [? | O]; [tauto|]. now apply IHr.
Qed.

Lemma indexOf_lower (c : ascii) (s : string) : -1 <= indexOf c s.
Proof.
  induction s as [|d r IH]; simpl; [lia|].
  destruct (Ascii.eqb d c); [lia|].
  destruct (indexOf c r <? 0); lia.
Qed.

Lemma indexOf_absent (c : ascii) (s : string) :
  ~ occurs c s -> indexOf c s = -1.
Proof.
  induction s as [|d r IH]; simpl; [reflexivity|]. intros N.
  destruct (Ascii.eqb_spec d c); [tauto|].
  rewrite IH by tauto. reflexivity.
Qed.

Lemma indexOf_split (c : ascii) (p q : string) :
  ~ occurs c p -> indexOf c (p ++ String c q) = len p.
Proof.
  induction p as [|x p IH]; simpl; intros N.
  - now rewrite Ascii.eqb_refl.
  - destruct (Ascii.eqb_spec x c); [tauto|].
    rewrite IH by tauto. rewrite len_cons.
    pose proof (len_nonneg p).
    destruct (len p <? 0) eqn:E; [lia | reflexivity].
Qed.

Lemma indexOf_found (c : ascii) (s : string) :
  occurs c s ->
  exists p q, s = p ++ String c q /\ ~ occurs c p /\ indexOf c s = len p.
Proof.
  induction s as [|d r IH]; simpl; [tauto|]. intros O.
  destruct (Ascii.eqb_spec d c) as [-> | Ne].
  - exists "", r. now repeat split.
  - destruct IH as [p [q [Es [N L]]]]; [tauto|].
    exists (String d p), q. rewrite L, len_cons, Es.
    pose proof (len_nonneg p).
    destruct (len p <? 0) eqn:E; [lia|].
    repeat split. simpl. tauto.
Qed.

End JSFacts.

(* ================================================================== *)
(** * The address normalizer *)

Section Normalizer.
Import JS JSFacts.

Lemma norm_idem (s : string) : norm (norm s) = norm s.
Proof.
  unfold norm. now rewrite trim_toLowerCase, trim_idem, toLowerCase_idem.
Qed.

Lemma full_splitAddress (x : string) : full (splitAddress x) = norm x.
Proof. unfold splitAddress. now destruct (_ <? 1). Qed.

Lemma occurs_at_norm (x : string) : occurs "@" (norm x) -> occurs "@" x.
Proof. intros H. now apply occurs_trim, occurs_at_toLowerCase. Qed.

(** An address the splitter takes for invalid: no [@], or nothing
    before the last one. *)
Lemma splitAddress_invalid (x : string) :
  ~ occurs "@" x \/ (exists d, norm x = String "@" d /\ ~ occurs "@" d) ->
  splitAddress x = mkAddress "" "" (norm x).
Proof.
  intros H. unfold splitAddress.
  assert (L : (lastIndexOf "@" (norm x) <? 1) = true).
  { apply Z.ltb_lt. destruct H as [N | [d [E N]]].
    - rewrite lastIndexOf_absent; [lia|]. intros O. now apply N, occurs_at_norm.
    - rewrite E. change (String "@" d) with ("" ++ String "@" d).
      rewrite (lastIndexOf_split "@" "" d N). cbn. lia. }
  now rewrite L.
Qed.

(** Otherwise the parts are what stands before and after the last [@]. *)
Lemma splitAddress_valid (x : string) :
  local (splitAddress x) <> "" ->
  exists p q, norm x = p ++ String "@" q /\ ~ occurs "@" q /\ p <> ""
              /\ splitAddress x = mkAddress p q (norm x).
Proof.
  unfold splitAddress.
  destruct (lastIndexOf "@" (norm x) <? 1) eqn:L; simpl; [congruence|].
  apply Z.ltb_ge in L. intros Hl.
  destruct (lastIndexOf_found "@" (norm x)) as [p [q [E [N Hp]]]]; [lia|].
  exists p, q. rewrite Hp in *. rewrite E in Hl |- * at 1.
  rewrite slice_prefix in Hl.
  repeat split; trivial.
  rewrite E at 1 2. rewrite slice_prefix. f_equal.
  change (p ++ String "@" q) with (p ++ String "@" "" ++ q).
  rewrite <- append_assoc.
  replace (len p + 1) with (len (p ++ String "@" "")).
  - apply sliceFrom_suffix.
  - rewrite len_append. reflexivity.
Qed.

(** The base of plus addressing: what stands before the first plus of
    the local part, followed by [@] and the domain. *)
Lemma plusBase_some (rcpt : Address) (base : string) :
  plusBase rcpt = Some base <->
  exists p q, local rcpt = p ++ String "+" q /\ ~ occurs "+" p
              /\ base = p ++ "@" ++ domain rcpt.
Proof.
  unfold plusBase. cbv zeta. split.
  - destruct (indexOf "+" (local rcpt) >? -1) eqn:G; [|discriminate].
    intros H. injection H as H.
    destruct (occurs_dec "+" (local rcpt)) as [O | N].
    + destruct (indexOf_found _ _ O) as [p [q [E [N I]]]].
      exists p, q. repeat split; trivial.
      rewrite <- H, I, E. now rewrite slice_prefix.
    + rewrite (indexOf_absent _ _ N) in G. discriminate.
  - intros [p [q [E [N ->]]]].
    cbv zeta. rewrite E, (indexOf_split _ _ _ N).
    pose proof (len_nonneg p).
    destruct (len p >? -1) eqn:G; [|lia].
    now rewrite slice_prefix.
Qed.

Lemma plusBase_none (rcpt : Address) :
  plusBase rcpt = None <-> ~ occurs "+" (local rcpt).
Proof.
  split.
  - intros H O. destruct (indexOf_found _ _ O) as [p [q [E [N _]]]].
    assert (K : plusBase rcpt = Some (p ++ "@" ++ domain rcpt)).
    { apply plusBase_some. now exists p, q. }
    congruence.
  - intros N. destruct (plusBase rcpt) as [base|] eqn:P; [|reflexivity].
    apply plusBase_some in P as [p [q [E _]]].
    exfalso. apply N. rewrite E, occurs_append. right. now left.
Qed.

(** The base is shorter than the recipient, hence another key. *)
Lemma plusBase_not_full (x base : string) :
  local (splitAddress x) <> "" ->
  plusBase (splitAddress x) = Some base ->
  base <> full (splitAddress x).
Proof.
  intros L P Eq.
  destruct (splitAddress_valid x L) as [p0 [q0 [E [_ [_ S]]]]].
  rewrite S in P, Eq. simpl in Eq.
  apply plusBase_some in P as [p [q [El [_ Eb]]]]. simpl in El, Eb.
  assert (K : len base = len (norm x)) by now rewrite Eq.
  rewrite Eb, E, El in K.
  repeat (rewrite ?len_append, ?len_cons in K).
  pose proof (len_nonneg q). lia.
Qed.

End Normalizer.

(* ================================================================== *)
(** * Runs of the handler *)

Lemma bind_normal {A B} (tr : list Event) (a : A) (k : A -> Async B) :
  bind (tr, Normal a) k = ((tr ++ trace (k a))%list, completion (k a)).
Proof. unfold bind, trace, completion. now destruct (k a). Qed.

Lemma trace_pair {A} (tr : list Event) (c : Completion A) : trace (tr, c) = tr.
Proof. reflexivity. Qed.

Lemma bind_throw {A B} (tr : list Event) (e : string) (k : A -> Async B) :
  bind (tr, Throw e) k = (tr, Throw e).
Proof. reflexivity. Qed.

Lemma try_catch_throw {A} (tr : list Event) (e : string) (h : string -> Async A) :
  try_catch (tr, Throw e) h = ((tr ++ trace (h e))%list, completion (h e)).
Proof. unfold try_catch, trace, completion. now destruct (h e). Qed.

Lemma try_catch_normal {A} (tr : list Event) (a : A) (h : string -> Async A) :
  try_catch (tr, Normal a) h = (tr, Normal a).
Proof. reflexivity. Qed.

Lemma persistLog_run (rt : Runtime) (env : Env) (e : Entry.t) :
  persistLog rt env e
  = ([Insert (logRow rt e) (insert_ok env (logRow rt e))], Normal tt).
Proof.
  unfold persistLog, insertLog, insert_ok.
  now destruct (insert_fault (DB env) (logRow rt e)).
Qed.

(** Logging an entry and going on with [k]. *)
Lemma logged_then (rt : Runtime) (env : Env) (e : Entry.t) (k : Async unit) :
  (logEvent e ;; persistLog rt env e ;; k)
  = ((logged rt env e ++ trace k)%list, completion k).
Proof.
  rewrite persistLog_run. unfold logEvent, call, logged.
  rewrite !bind_normal. destruct k. reflexivity.
Qed.

(** The worker domain is never the empty string. *)
Lemma getDomain_truthy (env : Env) : JS.truthy (getDomain env) = true.
Proof.
  unfold getDomain, JS.or_else.
  set (c := match DOMAIN env with Some d => _ | None => _ end).
  destruct (JS.truthy c) eqn:T; [exact T | reflexivity].
Qed.

Section Runs.
Variables (rt : Runtime) (message : EmailMessage) (env : Env).

Let rcpt := splitAddress (to message).
Let meta := msgMeta rt message env.

Lemma noMatch_run :
  noMatch rt message env
  = ((logged rt env (meta "none" None None "rejected"
                       (Some "no matching alias or plus-base alias found"))
      ++ [SetReject (rejection (getDomain env) NoMatch)])%list,
     Normal tt).
Proof.
  unfold noMatch. rewrite logged_then. unfold rejection, reasonText, JS.or_else.
  now rewrite getDomain_truthy.
Qed.

Section Deliver.
Variables (kind : string) (base : option string) (row : Alias).

Let entry := meta kind base (Some (forward_to row)).

Lemma deliver_loop :
  wouldLoop (forward_to row) env = true ->
  deliver rt message env kind base row
  = ((logged rt env
        (entry "rejected"
           (Some "routing loop detected (forward_to is in our own domain)"))
      ++ [SetReject (rejection (getDomain env) RoutingLoop)])%list,
     Normal tt).
Proof. intros W. unfold deliver. rewrite W, logged_then. reflexivity. Qed.

Lemma deliver_forwarded :
  wouldLoop (forward_to row) env = false ->
  forward_fault message (forward_to row) = None ->
  deliver rt message env kind base row
  = (Forward (forward_to row) true :: logged rt env (entry "forwarded" None),
     Normal tt).
Proof.
  intros W F. unfold deliver, forward. rewrite W, F.
  rewrite persistLog_run. reflexivity.
Qed.

Lemma deliver_failed (err : string) :
  wouldLoop (forward_to row) env = false ->
  forward_fault message (forward_to row) = Some err ->
  deliver rt message env kind base row
  = (Forward (forward_to row) false
       :: (logged rt env (entry "error" (Some err))
           ++ [SetReject (rejection (getDomain env) DeliveryFailed)])%list,
     Normal tt).
Proof.
  intros W F. unfold deliver, forward. rewrite W, F.
  unfold call, bind at 1, try_catch. rewrite logged_then. reflexivity.
Qed.

(** Delivery always completes, whichever of the three ways it goes. *)
Lemma deliver_completes :
  completion (deliver rt message env kind base row) = Normal tt.
Proof.
  destruct (wouldLoop (forward_to row) env) eqn:W.
  - now rewrite deliver_loop.
  - destruct (forward_fault message (forward_to row)) eqn:F.
    + now rewrite (deliver_failed _ W F).
    + now rewrite deliver_forwarded.
Qed.

End Deliver.

Lemma select_run (key : string) :
  selectAlias env key
  = ([Select key],
     match select_fault (DB env) key with
     | Some e => Throw e
     | None => Normal (aliasOf env key)
     end).
Proof. unfold selectAlias, call. now destruct (select_fault (DB env) key). Qed.

Lemma lastResort_run (err : string) :
  lastResort rt message env err
  = ((logged rt env (meta "exception" None None "error" (Some err))
      ++ [SetReject (rejection (getDomain env) InternalException)])%list,
     Normal tt).
Proof. unfold lastResort. rewrite logged_then. reflexivity. Qed.

(** Step 0 rejects: nothing is looked up. *)
Lemma email_invalid :
  local rcpt = "" \/ domain rcpt <> getDomain env ->
  email rt message env
  = ((logged rt env
        (meta "invalid-domain" None None "rejected"
           (Some ("recipient domain " ++ JS.or_else (domain rcpt) "<none>"
                  ++ " does not match worker domain " ++ getDomain env)%string))
      ++ [SetReject (rejection (getDomain env) InvalidDomain)])%list,
     Normal tt).
Proof.
  intros H. unfold email, route. fold rcpt.
  assert (C : negb (JS.truthy (local rcpt))
              || negb (String.eqb (domain rcpt) (getDomain env)) = true).
  { destruct H as [H | H].
    - now rewrite H.
    - apply String.eqb_neq in H. rewrite H. apply orb_true_r. }
  rewrite C, logged_then. reflexivity.
Qed.

Lemma accepted_check :
  accepted message env ->
  negb (JS.truthy (local rcpt))
  || negb (String.eqb (domain rcpt) (getDomain env)) = false.
Proof.
  intros [L D]. fold rcpt in L, D. rewrite D, String.eqb_refl.
  destruct (local rcpt); [congruence | reflexivity].
Qed.

(** A failing first lookup ends in the last-resort handler. *)
Lemma email_exact_fault (err : string) :
  accepted message env ->
  select_fault (DB env) (full rcpt) = Some err ->
  email rt message env
  = (Select (full rcpt)
       :: (logged rt env (meta "exception" None None "error" (Some err))
           ++ [SetReject (rejection (getDomain env) InternalException)])%list,
     Normal tt).
Proof.
  intros A F. unfold email, route. fold rcpt.
  rewrite (accepted_check A), select_run, F.
  rewrite bind_throw, try_catch_throw, lastResort_run. reflexivity.
Qed.

(** An exact match goes to delivery and nowhere else. *)
Lemma email_exact (row : Alias) :
  resolvesExact message env row ->
  email rt message env
  = (Select (full rcpt) :: trace (deliver rt message env "exact" None row),
     Normal tt).
Proof.
  intros [A [F L]]. unfold email, route. fold rcpt in F, L |- *.
  rewrite (accepted_check A), select_run, F, L, bind_normal.
  rewrite deliver_completes. reflexivity.
Qed.

(** No exact match and no plus in the local part. *)
Lemma email_no_plus :
  accepted message env ->
  answers env (full rcpt) None ->
  plusBase rcpt = None ->
  email rt message env
  = (Select (full rcpt) :: trace (noMatch rt message env), Normal tt).
Proof.
  intros A [F L] P. unfold email, route. fold rcpt.
  rewrite (accepted_check A), select_run, F, L, bind_normal, P.
  rewrite noMatch_run. reflexivity.
Qed.

Section Plus.
Variable base : string.
Hypothesis A : accepted message env.
Hypothesis E : answers env (full rcpt) None.
Hypothesis P : plusBase rcpt = Some base.

Lemma email_base_fault (err : string) :
  select_fault (DB env) base = Some err ->
  email rt message env
  = (Select (full rcpt) :: Select base
       :: (logged rt env (meta "exception" None None "error" (Some err))
           ++ [SetReject (rejection (getDomain env) InternalException)])%list,
     Normal tt).
Proof.
  intros F. destruct E as [F0 L0]. unfold email, route. fold rcpt.
  rewrite (accepted_check A), select_run, F0, L0, bind_normal, P.
  rewrite select_run, F.
  rewrite bind_throw. unfold trace at 1, completion at 1, fst, snd.
  rewrite try_catch_throw, lastResort_run. reflexivity.
Qed.

Lemma email_base_tag (row : Alias) :
  answers env base (Some row) ->
  allow_plus row = 1 ->
  email rt message env
  = (Select (full rcpt) :: Select base
       :: trace (deliver rt message env "base+tag" (Some base) row),
     Normal tt).
Proof.
  intros [F L] AP. destruct E as [F0 L0]. unfold email, route. fold rcpt.
  rewrite (accepted_check A), select_run, F0, L0, bind_normal, P.
  rewrite select_run, F, L, bind_normal, AP.
  change (1 =? 1) with true. cbv iota.
  rewrite deliver_completes. reflexivity.
Qed.

Lemma email_base_none (r : option Alias) :
  answers env base r ->
  (r = None \/ exists row, r = Some row /\ allow_plus row <> 1) ->
  email rt message env
  = (Select (full rcpt) :: Select base :: trace (noMatch rt message env),
     Normal tt).
Proof.
  intros [F L] H. destruct E as [F0 L0]. unfold email, route. fold rcpt.
  rewrite (accepted_check A), select_run, F0, L0, bind_normal, P.
  rewrite select_run, F, L, bind_normal.
  destruct H as [-> | [row [-> N]]].
  - rewrite noMatch_run. reflexivity.
  - apply Z.eqb_neq in N. rewrite N, noMatch_run. reflexivity.
Qed.

End Plus.

End Runs.

(* ================================================================== *)
(** * The shape of every run *)

Section Shapes.
Variables (rt : Runtime) (message : EmailMessage) (env : Env).

Let rcpt := splitAddress (to message).

Lemma accepted_dec :
  {accepted message env} + {local rcpt = "" \/ domain rcpt <> getDomain env}.
Proof.
  unfold accepted. fold rcpt.
  destruct (string_dec (local rcpt) "") as [L | L]; [right; now left|].
  destruct (string_dec (domain rcpt) (getDomain env)) as [D | D].
  - left. now split.
  - right. now right.
Qed.

Lemma deliver_shape (keys : list string) (kind : string)
    (base : option string) (row : Alias) :
  Shape rt env
    ((map Select keys ++ trace (deliver rt message env kind base row))%list,
     Normal tt).
Proof.
  destruct (wouldLoop (forward_to row) env) eqn:W.
  - rewrite deliver_loop by exact W. now apply ShapeRejected.
  - destruct (forward_fault message (forward_to row)) as [err|] eqn:F.
    + rewrite (deliver_failed _ _ _ _ _ _ _ W F). apply ShapeFailed.
    + rewrite deliver_forwarded by assumption. apply ShapeForwarded.
Qed.

Lemma noMatch_shape (keys : list string) :
  Shape rt env
    ((map Select keys ++ trace (noMatch rt message env))%list, Normal tt).
Proof. rewrite noMatch_run. now apply ShapeRejected. Qed.

Lemma email_shape : Shape rt env (email rt message env).
Proof.
  destruct accepted_dec as [A | NA].
  2: { rewrite email_invalid by exact NA.
       now apply (ShapeRejected rt env []). }
  destruct (select_fault (DB env) (full rcpt)) as [err|] eqn:F0.
  { rewrite (email_exact_fault _ _ _ err A F0).
    now apply (ShapeRejected rt env [full rcpt]). }
  destruct (aliasOf env (full rcpt)) as [row|] eqn:L0.
  { rewrite (email_exact _ _ _ row) by (repeat split; assumption || apply A).
    apply (deliver_shape [full rcpt]). }
  assert (E : answers env (full rcpt) None) by now split.
  destruct (plusBase rcpt) as [base|] eqn:P.
  2: { rewrite email_no_plus by assumption. apply (noMatch_shape [full rcpt]). }
  destruct (select_fault (DB env) base) as [err|] eqn:F1.
  { rewrite (email_base_fault _ _ _ base A E P err F1).
    now apply (ShapeRejected rt env [full rcpt; base]). }
  destruct (aliasOf env base) as [row|] eqn:L1.
  - destruct (Z.eq_dec (allow_plus row) 1) as [AP | AP].
    + rewrite (email_base_tag _ _ _ base A E P row) by (trivial; now split).
      apply (deliver_shape [full rcpt; base]).
    + rewrite (email_base_none _ _ _ base A E P (Some row)).
      * apply (noMatch_shape [full rcpt; base]).
      * now split.
      * right. now exists row.
  - rewrite (email_base_none _ _ _ base A E P None).
    + apply (noMatch_shape [full rcpt; base]).
    + now split.
    + now left.
Qed.

End Shapes.

(** Lookups contribute nothing to the other observations. *)
Lemma forwarded_selects (keys : list string) (tr : list Event) :
  forwarded (map Select keys ++ tr) = forwarded tr.
Proof. induction keys; simpl; auto. Qed.

Lemma rejects_selects (keys : list string) (tr : list Event) :
  rejects (map Select keys ++ tr) = rejects tr.
Proof. induction keys; simpl; auto. Qed.

Lemma inserts_selects (keys : list string) (tr : list Event) :
  inserts (map Select keys ++ tr) = inserts tr.
Proof. induction keys; simpl; auto. Qed.

Lemma consoles_selects (keys : list string) (tr : list Event) :
  consoles (map Select keys ++ tr) = consoles tr.
Proof. induction keys; simpl; auto. Qed.

(* ================================================================== *)
(** * End-to-end scenarios, worker domain [example.com] *)

Example scenario_plus_tag :
  let run := email sampleRuntime (inbound "Hello+Promo@Example.com")
               (sampleEnv [mkAlias "hello@example.com" "you@inbox.example.net" 1]) in
  transport (trace run) = [Forward "you@inbox.example.net" true]
  /\ lookups (trace run) = ["hello+promo@example.com"; "hello@example.com"]
  /\ map Entry.route (consoles (trace run)) = ["base+tag"]
  /\ map Entry.base (consoles (trace run)) = [Some "hello@example.com"].
Proof. vm_compute. repeat split. Qed.

Example scenario_exact :
  let run := email sampleRuntime (inbound "hello@example.com")
               (sampleEnv [mkAlias "hello@example.com" "you@inbox.example.net" 1]) in
  transport (trace run) = [Forward "you@inbox.example.net" true]
  /\ map Entry.route (consoles (trace run)) = ["exact"].
Proof. vm_compute. repeat split. Qed.

Example scenario_loop :
  let run := email sampleRuntime (inbound "a@example.com")
               (sampleEnv [mkAlias "a@example.com" "b@example.com" 1]) in
  transport (trace run) = [SetReject "550 Routing loop detected"].
Proof. vm_compute. reflexivity. Qed.

Example scenario_no_alias :
  let run := email sampleRuntime (inbound "nobody@example.com") (sampleEnv []) in
  transport (trace run) = [SetReject "550 No such user at example.com"]
  /\ map Entry.route (consoles (trace run)) = ["none"].
Proof. vm_compute. repeat split. Qed.

Example scenario_other_domain :
  let run := email sampleRuntime (inbound "x@other.com")
               (sampleEnv [mkAlias "x@other.com" "y@inbox.example.net" 1]) in
  trace run
  = [Console (Entry.mk "<m1@remote.test>" "sender@remote.test" "x@other.com" 2048
                "example.com" "invalid-domain" None None "rejected"
                (Some "recipient domain other.com does not match worker domain example.com"));
     Insert (LogRow.mk 1730000000 (Some "<m1@remote.test>")
               (Some "sender@remote.test") (Some "x@other.com")
               (Some "invalid-domain") None None (Some "rejected") 2048
               (Some "recipient domain other.com does not match worker domain example.com"))
            true;
     SetReject "550 Invalid recipient for this domain"].
Proof. vm_compute. reflexivity. Qed.

Example scenario_plus_disabled :
  let run := email sampleRuntime (inbound "hello+x@example.com")
               (sampleEnv [mkAlias "hello@example.com" "you@inbox.example.net" 0]) in
  transport (trace run) = [SetReject "550 No such user at example.com"]
  /\ lookups (trace run) = ["hello+x@example.com"; "hello@example.com"].
Proof. vm_compute. repeat split. Qed.

(** A refused forward, a failing lookup and a failing log write. *)
Example scenario_faults :
  let row := mkAlias "hello@example.com" "you@inbox.example.net" 1 in
  let refused := mkMessage "sender@remote.test" "hello@example.com" 2048 None
                   (fun _ => Some "Error: destination address not verified") in
  let down := mkEnv (Some "example.com")
                (mkD1 [row] (fun _ => Some "D1_ERROR") (fun _ => Some "D1_ERROR")) in
  transport (trace (email sampleRuntime refused (sampleEnv [row])))
  = [Forward "you@inbox.example.net" false;
     SetReject "550 Destination not verified"]
  /\ map Entry.id (consoles (trace (email sampleRuntime refused (sampleEnv [row]))))
     = ["3f0c5e0a-7d7b-4c53-9a56-0d9c1b1f2e11"]
  /\ transport (trace (email sampleRuntime (inbound "hello@example.com") down))
     = [SetReject "550 Internal error"]
  /\ map Entry.route
       (consoles (trace (email sampleRuntime (inbound "hello@example.com") down)))
     = ["exception"]
  /\ completion (email sampleRuntime (inbound "hello@example.com") down) = Normal tt.
Proof. vm_compute. repeat split. Qed.

(** The [address] column is NOCASE: an alias stored in another letter
    case is found, by the exact lookup before the plus-tag base is
    tried. *)
Example scenario_stored_case :
  let rows := [mkAlias "A+X@example.com" "ok@elsewhere.net" 1;
               mkAlias "a@example.com" "b@example.com" 1] in
  let run := email sampleRuntime (inbound "a+x@example.com") (sampleEnv rows) in
  transport (trace run) = [Forward "ok@elsewhere.net" true]
  /\ lookups (trace run) = ["a+x@example.com"]
  /\ map Entry.route (consoles (trace run)) = ["exact"]
  /\ map Entry.route
       (consoles (trace (email sampleRuntime (inbound "hello+x@example.com")
                           (sampleEnv [mkAlias "HELLO@example.com"
                                         "you@inbox.example.net" 1]))))
     = ["base+tag"].
Proof. vm_compute. repeat split. Qed.

(* ================================================================== *)
(** * The claims *)

(** C9. [splitAddress] is idempotent through [full]:
    splitting the [full] of a split address gives the same three parts.
    Its [full] is the input with a run of white space removed at either
    end (and no more than that) and every unit lower-cased.  If the input
    has no [@], or nothing before its last [@] once normalized, [local]
    and [domain] are empty and [full] is kept; otherwise [local], [@] and
    [domain] make up [full] again. *)
Theorem splitAddress_idempotent (x : string) :
  splitAddress (full (splitAddress x)) = splitAddress x
  /\ (exists pre t post,
        blank pre /\ blank post /\ trimmed t
        /\ x = pre ++ t ++ post
        /\ full (splitAddress x) = JS.toLowerCase t)
  /\ (~ JS.occurs "@" x
      \/ (exists d, norm x = String "@" d /\ ~ JS.occurs "@" d) ->
      local (splitAddress x) = ""
      /\ domain (splitAddress x) = ""
      /\ full (splitAddress x) = norm x)
  /\ (local (splitAddress x) <> "" ->
      full (splitAddress x)
      = local (splitAddress x) ++ "@" ++ domain (splitAddress x)
      /\ ~ JS.occurs "@" (domain (splitAddress x))).
Proof.
  split; [|split; [|split]].
  - rewrite full_splitAddress. unfold splitAddress. now rewrite norm_idem.
  - destruct (JSFacts.trim_split x) as [pre [post [Bp [Bq E]]]].
    exists pre, (JS.trim x), post. repeat split; trivial.
    + apply JSFacts.trimmed_trim.
    + apply full_splitAddress.
  - intros H. now rewrite (splitAddress_invalid x H).
  - intros H. destruct (splitAddress_valid x H) as [p [q [E [N [_ S]]]]].
    rewrite S. simpl. now split.
Qed.

Lemma splitAddress_idempotent_witness :
  (~ JS.occurs "@" "  Postmaster "
   \/ (exists d, norm "  Postmaster " = String "@" d /\ ~ JS.occurs "@" d))
  /\ local (splitAddress " Hello+Promo@Example.COM ") <> ""
  /\ local (splitAddress "  Postmaster ") = ""
  /\ full (splitAddress " Hello+Promo@Example.COM ")
     = local (splitAddress " Hello+Promo@Example.COM ") ++ "@"
       ++ domain (splitAddress " Hello+Promo@Example.COM ").
Proof.
  assert (H1 : ~ JS.occurs "@" "  Postmaster "
               \/ (exists d, norm "  Postmaster " = String "@" d
                             /\ ~ JS.occurs "@" d)).
  { left. simpl. intuition discriminate. }
  assert (H2 : local (splitAddress " Hello+Promo@Example.COM ") <> "").
  { vm_compute. discriminate. }
  split; [exact H1 | split; [exact H2 | split]].
  - exact (proj1 (proj1 (proj2 (proj2 (splitAddress_idempotent _))) H1)).
  - exact (proj1 (proj2 (proj2 (proj2 (splitAddress_idempotent _))) H2)).
Defined.

(** The handler reads [env] only through [getDomain] and [DB]. *)
Lemma email_env_ext (rt : Runtime) (message : EmailMessage) (env env' : Env) :
  getDomain env = getDomain env' -> DB env = DB env' ->
  email rt message env = email rt message env'.
Proof.
  intros G D.
  unfold email, route, lastResort, deliver, noMatch, msgMeta, wouldLoop,
    isOurDomain, persistLog, insertLog, selectAlias, aliasOf.
  now rewrite G, D.
Qed.

(** C10. When [env.DOMAIN] is unset, or set to a string that
    normalizes to the empty string, [getDomain] answers the literal
    ["example.com"], and the handler runs exactly as it does with
    [DOMAIN] set to ["example.com"]: same domain check, same lookups, same
    loop guard, same log entries. *)
Theorem getDomain_fallback (rt : Runtime) (message : EmailMessage) (env : Env) :
  DOMAIN env = None \/ (exists d, DOMAIN env = Some d /\ norm d = "") ->
  getDomain env = "example.com"
  /\ email rt message env
     = email rt message (mkEnv (Some "example.com") (DB env)).
Proof.
  intros H.
  assert (G : getDomain env = "example.com").
  { unfold getDomain. destruct H as [-> | [d [-> N]]]; [reflexivity|].
    rewrite N. now destruct (JS.truthy d). }
  split; [exact G|].
  apply email_env_ext; [rewrite G|]; reflexivity.
Qed.

Lemma getDomain_fallback_witness :
  getDomain (mkEnv (Some "   ") (mkD1 [] no_fault no_fault)) = "example.com"
  /\ getDomain (mkEnv None (mkD1 [] no_fault no_fault)) = "example.com".
Proof.
  split.
  - refine (proj1 (getDomain_fallback sampleRuntime (inbound "a@example.com")
                     (mkEnv (Some "   ") (mkD1 [] no_fault no_fault)) _)).
    right. exists "   ". split; reflexivity.
  - refine (proj1 (getDomain_fallback sampleRuntime (inbound "a@example.com")
                     (mkEnv None (mkD1 [] no_fault no_fault)) _)).
    left. reflexivity.
Defined.

(** C6. A recipient whose normalized domain is not the worker's
    domain is rejected as an invalid recipient, the entry is logged with
    route ["invalid-domain"], and the alias store is never queried (nor
    is [forward] called). *)
Theorem foreign_domain_no_lookup (rt : Runtime) (message : EmailMessage) (env : Env) :
  domain (splitAddress (to message)) <> getDomain env ->
  let run := email rt message env in
  lookups (trace run) = []
  /\ rejects (trace run) = ["550 Invalid recipient for this domain"]
  /\ forwards (trace run) = []
  /\ map Entry.route (consoles (trace run)) = ["invalid-domain"]
  /\ map Entry.result (consoles (trace run)) = ["rejected"]
  /\ completion run = Normal tt.
Proof.
  intros H run. subst run.
  rewrite email_invalid by (now right).
  repeat split.
Qed.

Lemma foreign_domain_no_lookup_witness :
  domain (splitAddress "x@other.com") <> getDomain (sampleEnv [])
  /\ lookups (trace (email sampleRuntime (inbound "x@other.com") (sampleEnv []))) = [].
Proof.
  assert (H : domain (splitAddress (to (inbound "x@other.com")))
              <> getDomain (sampleEnv [])).
  { vm_compute. discriminate. }
  split; [exact H|].
  exact (proj1 (foreign_domain_no_lookup sampleRuntime (inbound "x@other.com")
                  (sampleEnv []) H)).
Defined.

(** C7. Every run of the handler tries to write exactly one row
    to [email_logs], the row of the one entry it printed, whichever
    branch it took. *)
Theorem one_log_row_per_message (rt : Runtime) (message : EmailMessage) (env : Env) :
  exists e,
    inserts (trace (email rt message env)) = [logRow rt e]
    /\ consoles (trace (email rt message env)) = [e].
Proof.
  destruct (email_shape rt message env) as [keys e r _ | keys e dest | keys e dest];
    exists e; unfold trace, fst;
    now rewrite inserts_selects, consoles_selects.
Qed.

(** C3. Every run completes normally (nothing is thrown to the
    caller) and the transport sees exactly one of two things: one
    successful [forward] and no rejection, or no successful [forward] and
    one rejection whose text is ["550 "] followed by one of the five
    reasons. *)
Theorem forwarded_or_rejected (rt : Runtime) (message : EmailMessage) (env : Env) :
  let run := email rt message env in
  completion run = Normal tt
  /\ ((exists dest, forwarded (trace run) = [dest] /\ rejects (trace run) = [])
      \/ (forwarded (trace run) = []
          /\ exists r : Reason,
               rejects (trace run) = ["550 " ++ reasonText (getDomain env) r])).
Proof.
  intros run. subst run.
  destruct (email_shape rt message env) as [keys e r _ | keys e dest | keys e dest];
    (split; [reflexivity|]); unfold trace, fst;
    rewrite forwarded_selects, rejects_selects.
  - right. split; [reflexivity | now exists r].
  - left. now exists dest.
  - right. split; [reflexivity | now exists DeliveryFailed].
Qed.

(** C1. An alias resolved by exact match or by plus addressing
    whose [forward_to] lies, once normalized, in the worker's own domain:
    the message is rejected with ["550 Routing loop detected"],
    [message.forward] is not called at all, and the logged result is
    ["rejected"], the same for both kinds of route. *)
Theorem routing_loop_rejected (rt : Runtime) (message : EmailMessage) (env : Env)
    (row : Alias) :
  resolvesExact message env row
  \/ (exists base, resolvesBaseTag message env base row) ->
  domain (splitAddress (forward_to row)) = getDomain env ->
  let run := email rt message env in
  rejects (trace run) = ["550 Routing loop detected"]
  /\ forwards (trace run) = []
  /\ map Entry.result (consoles (trace run)) = ["rejected"]
  /\ map Entry.dest (consoles (trace run)) = [Some (forward_to row)]
  /\ completion run = Normal tt.
Proof.
  intros R D run. subst run.
  assert (W : wouldLoop (forward_to row) env = true).
  { unfold wouldLoop, isOurDomain. rewrite D. apply String.eqb_refl. }
  destruct R as [R | [base [A [E [P [B AP]]]]]].
  - rewrite (email_exact _ _ _ row R), deliver_loop by exact W.
    repeat split.
  - rewrite (email_base_tag _ _ _ base A E P row B AP), deliver_loop by exact W.
    repeat split.
Qed.

Lemma routing_loop_rejected_witness :
  rejects (trace (email sampleRuntime (inbound "a@example.com")
                    (sampleEnv [mkAlias "a@example.com" "b@example.com" 1])))
  = ["550 Routing loop detected"]
  /\ forwards (trace (email sampleRuntime (inbound "a+x@example.com")
                        (sampleEnv [mkAlias "a@example.com" "B@Example.com " 1])))
     = [].
Proof.
  split.
  - refine (proj1 (routing_loop_rejected sampleRuntime (inbound "a@example.com")
                     (sampleEnv [mkAlias "a@example.com" "b@example.com" 1])
                     (mkAlias "a@example.com" "b@example.com" 1) _ _)).
    + left. unfold resolvesExact, accepted, answers. vm_compute.
      repeat split; discriminate.
    + vm_compute. reflexivity.
  - refine (proj1 (proj2
              (routing_loop_rejected sampleRuntime (inbound "a+x@example.com")
                 (sampleEnv [mkAlias "a@example.com" "B@Example.com " 1])
                 (mkAlias "a@example.com" "B@Example.com " 1) _ _))).
    + right. exists "a@example.com".
      unfold resolvesBaseTag, accepted, answers. vm_compute.
      repeat split; discriminate.
    + vm_compute. reflexivity.
Defined.

(** C5. When the exact lookup returns a row, it alone decides:
    the store is queried once, for the full recipient, the plus-tag base
    (if the local part has one) is never looked up, the entry is logged
    with route ["exact"] and the row's destination, and [forward] is
    called for no other destination; this holds whatever else the store
    contains, a base alias included. *)
Theorem exact_match_wins (rt : Runtime) (message : EmailMessage) (env : Env)
    (row : Alias) :
  resolvesExact message env row ->
  let rcpt := splitAddress (to message) in
  let run := email rt message env in
  lookups (trace run) = [full rcpt]
  /\ (forall base, plusBase rcpt = Some base -> ~ In (Select base) (trace run))
  /\ map Entry.route (consoles (trace run)) = ["exact"]
  /\ map Entry.dest (consoles (trace run)) = [Some (forward_to row)]
  /\ (forall d, In d (forwards (trace run)) -> d = forward_to row)
  /\ run = (Select (full rcpt) :: trace (deliver rt message env "exact" None row),
            Normal tt).
Proof.
  intros R rcpt run. subst run.
  rewrite (email_exact _ _ _ row R). fold rcpt. unfold trace at 1 2 3 4 5, fst.
  assert (Nb : forall base, plusBase rcpt = Some base -> base <> full rcpt).
  { intros base P. destruct R as [[L _] _].
    now apply plusBase_not_full. }
  destruct (wouldLoop (forward_to row) env) eqn:W;
    [rewrite deliver_loop by exact W
    | destruct (forward_fault message (forward_to row)) as [err|] eqn:F;
      [rewrite (deliver_failed _ _ _ _ _ _ _ W F)
      | rewrite deliver_forwarded by assumption]];
    unfold trace, fst; (repeat split; try reflexivity);
    try (intros base P [K | K]; [injection K as K; now apply (Nb base P)|];
         simpl in K; intuition discriminate);
    simpl; intuition.
Qed.

Lemma exact_match_wins_witness :
  lookups (trace (email sampleRuntime (inbound "hello+promo@example.com")
                    (sampleEnv [mkAlias "hello@example.com" "you@inbox.example.net" 1;
                                mkAlias "hello+promo@example.com" "ads@inbox.example.net" 1])))
  = ["hello+promo@example.com"].
Proof.
  refine (proj1 (exact_match_wins sampleRuntime (inbound "hello+promo@example.com")
                   (sampleEnv [mkAlias "hello@example.com" "you@inbox.example.net" 1;
                               mkAlias "hello+promo@example.com" "ads@inbox.example.net" 1])
                   (mkAlias "hello+promo@example.com" "ads@inbox.example.net" 1) _)).
  unfold resolvesExact, accepted, answers. vm_compute.
  repeat split; discriminate.
Defined.

(* ------------------------------------------------------------------ *)
(** ** Independence of the log write *)

Lemma same_refl {A} (m : Async A) : same_but_log m m.
Proof. now split. Qed.

Lemma same_bind {A B} (m m' : Async A) (k k' : A -> Async B) :
  same_but_log m m' ->
  (forall a, same_but_log (k a) (k' a)) ->
  same_but_log (bind m k) (bind m' k').
Proof.
  destruct m as [tr c], m' as [tr' c']. intros [Ht Hc] Hk.
  unfold trace, completion, fst, snd in Ht, Hc. subst c'.
  destruct c as [a | e].
  - destruct (Hk a) as [Hkt Hkc]. rewrite !bind_normal.
    split; [|exact Hkc].
    unfold trace at 1 3, fst. rewrite !map_app. congruence.
  - rewrite !bind_throw. now split.
Qed.

Lemma same_try_catch {A} (m m' : Async A) (h h' : string -> Async A) :
  same_but_log m m' ->
  (forall e, same_but_log (h e) (h' e)) ->
  same_but_log (try_catch m h) (try_catch m' h').
Proof.
  destruct m as [tr c], m' as [tr' c']. intros [Ht Hc] Hh.
  unfold trace, completion, fst, snd in Ht, Hc. subst c'.
  destruct c as [a | e].
  - rewrite !try_catch_normal. now split.
  - destruct (Hh e) as [Hht Hhc]. rewrite !try_catch_throw.
    split; [|exact Hhc].
    unfold trace at 1 3, fst. rewrite !map_app. congruence.
Qed.

Lemma same_persistLog (rt : Runtime) (env : Env) (f : LogRow.t -> option string)
    (e : Entry.t) :
  same_but_log (persistLog rt (with_insert_fault env f) e) (persistLog rt env e).
Proof. rewrite !persistLog_run. now split. Qed.

Ltac same_steps :=
  repeat first
    [ apply same_persistLog
    | apply same_refl
    | apply same_bind; [|intros ?]
    | apply same_try_catch; [|intros ?] ].

Lemma same_deliver (rt : Runtime) (message : EmailMessage) (env : Env)
    (f : LogRow.t -> option string) (kind : string) (base : option string)
    (row : Alias) :
  same_but_log (deliver rt message (with_insert_fault env f) kind base row)
               (deliver rt message env kind base row).
Proof.
  unfold deliver.
  change (wouldLoop (forward_to row) (with_insert_fault env f))
    with (wouldLoop (forward_to row) env).
  destruct (wouldLoop (forward_to row) env); same_steps.
Qed.

Lemma same_noMatch (rt : Runtime) (message : EmailMessage) (env : Env)
    (f : LogRow.t -> option string) :
  same_but_log (noMatch rt message (with_insert_fault env f))
               (noMatch rt message env).
Proof. unfold noMatch. same_steps. Qed.

Lemma same_email (rt : Runtime) (message : EmailMessage) (env : Env)
    (f : LogRow.t -> option string) :
  same_but_log (email rt message (with_insert_fault env f))
               (email rt message env).
Proof.
  unfold email. apply same_try_catch.
  2: { intros err. unfold lastResort. same_steps. }
  unfold route.
  change (getDomain (with_insert_fault env f)) with (getDomain env).
  destruct (negb _ || negb _); [same_steps|].
  apply same_bind; [apply same_refl|]. intros [row|].
  - apply same_deliver.
  - destruct (plusBase _) as [base|]; [|apply same_noMatch].
    apply same_bind; [apply same_refl|]. intros [row|]; [|apply same_noMatch].
    destruct (allow_plus row =? 1); [apply same_deliver | apply same_noMatch].
Qed.

Lemma transport_attempt (tr : list Event) :
  transport (map attempt tr) = transport tr.
Proof.
  induction tr as [|ev tr IH]; [reflexivity|].
  destruct ev; simpl; now rewrite ?IH.
Qed.

Lemma consoles_attempt (tr : list Event) :
  consoles (map attempt tr) = consoles tr.
Proof.
  induction tr as [|ev tr IH]; [reflexivity|].
  destruct ev; simpl; now rewrite ?IH.
Qed.

Lemma inserts_attempt (tr : list Event) :
  inserts (map attempt tr) = inserts tr.
Proof.
  induction tr as [|ev tr IH]; [reflexivity|].
  destruct ev; simpl; now rewrite ?IH.
Qed.

(** C8. Whatever the INSERT into [email_logs] does, [persistLog]
    returns normally, so the error never reaches the last-resort handler;
    and a run under any failure behaviour [f] of the log write makes the
    same calls as the run without it, in the same order, up to the
    success flag of the write: the same forwards and rejections reach the
    transport, the same entry is logged, and both runs complete
    normally. *)
Theorem log_failure_changes_nothing (rt : Runtime) (message : EmailMessage)
    (env : Env) (f : LogRow.t -> option string) :
  let run := email rt message env in
  let run' := email rt message (with_insert_fault env f) in
  (forall e, completion (persistLog rt (with_insert_fault env f) e) = Normal tt)
  /\ transport (trace run') = transport (trace run)
  /\ consoles (trace run') = consoles (trace run)
  /\ map attempt (trace run') = map attempt (trace run)
  /\ completion run' = Normal tt
  /\ completion run = Normal tt.
Proof.
  intros run run'. subst run run'.
  destruct (same_email rt message env f) as [T C].
  split; [intros e; now rewrite persistLog_run|].
  split; [now rewrite <- transport_attempt, T, transport_attempt|].
  split; [now rewrite <- consoles_attempt, T, consoles_attempt|].
  split; [exact T|].
  assert (N : completion (email rt message env) = Normal tt).
  { now destruct (email_shape rt message env). }
  split; [congruence | exact N].
Qed.

(* ------------------------------------------------------------------ *)
(** ** Plus addressing *)

Section PlusAddressing.
Variables (rt : Runtime) (message : EmailMessage) (env : Env).

Let rcpt := splitAddress (to message).

Lemma deliver_lookups (kind : string) (base : option string) (row : Alias) :
  lookups (trace (deliver rt message env kind base row)) = [].
Proof.
  destruct (wouldLoop (forward_to row) env) eqn:W.
  - now rewrite deliver_loop.
  - destruct (forward_fault message (forward_to row)) as [err|] eqn:F.
    + now rewrite (deliver_failed _ _ _ _ _ _ _ W F).
    + now rewrite deliver_forwarded.
Qed.

Lemma deliver_routes (kind : string) (base : option string) (row : Alias) :
  map Entry.route (consoles (trace (deliver rt message env kind base row)))
  = [kind].
Proof.
  destruct (wouldLoop (forward_to row) env) eqn:W.
  - now rewrite deliver_loop.
  - destruct (forward_fault message (forward_to row)) as [err|] eqn:F.
    + now rewrite (deliver_failed _ _ _ _ _ _ _ W F).
    + now rewrite deliver_forwarded.
Qed.

Lemma deliver_forwarded_iff (kind : string) (base : option string) (row : Alias) :
  forwarded (trace (deliver rt message env kind base row)) = [forward_to row]
  <-> wouldLoop (forward_to row) env = false
      /\ forward_fault message (forward_to row) = None.
Proof.
  destruct (wouldLoop (forward_to row) env) eqn:W.
  - rewrite deliver_loop by exact W. simpl. intuition discriminate.
  - destruct (forward_fault message (forward_to row)) as [err|] eqn:F.
    + rewrite (deliver_failed _ _ _ _ _ _ _ W F). simpl. intuition discriminate.
    + rewrite deliver_forwarded by assumption. simpl. intuition.
Qed.

Lemma deliver_forwarded_cases (kind : string) (base : option string) (row : Alias) :
  forwarded (trace (deliver rt message env kind base row)) = [forward_to row]
  \/ forwarded (trace (deliver rt message env kind base row)) = [].
Proof.
  destruct (wouldLoop (forward_to row) env) eqn:W.
  - rewrite deliver_loop by exact W. now right.
  - destruct (forward_fault message (forward_to row)) as [err|] eqn:F.
    + rewrite (deliver_failed _ _ _ _ _ _ _ W F). now right.
    + rewrite deliver_forwarded by assumption. now left.
Qed.

(** The run when the exact lookup finds nothing and the store answers
    every query. *)
Lemma email_after_exact_miss :
  accepted message env ->
  (forall key, select_fault (DB env) key = None) ->
  aliasOf env (full rcpt) = None ->
  email rt message env
  = (Select (full rcpt)
       :: match plusBase rcpt with
          | Some base =>
              Select base
                :: match aliasOf env base with
                   | Some row =>
                       if allow_plus row =? 1
                       then trace (deliver rt message env "base+tag" (Some base) row)
                       else trace (noMatch rt message env)
                   | None => trace (noMatch rt message env)
                   end
          | None => trace (noMatch rt message env)
          end,
     Normal tt).
Proof.
  intros A F L.
  assert (E : answers env (full rcpt) None) by (split; [apply F | exact L]).
  destruct (plusBase rcpt) as [base|] eqn:P.
  2: { now apply email_no_plus. }
  destruct (aliasOf env base) as [row|] eqn:L1.
  - destruct (Z.eqb_spec (allow_plus row) 1) as [AP | AP].
    + apply (email_base_tag _ _ _ base A E P row); [split|]; auto.
    + apply (email_base_none _ _ _ base A E P (Some row)); [split; auto|].
      right. now exists row.
  - apply (email_base_none _ _ _ base A E P None); [split; auto|]. now left.
Qed.

End PlusAddressing.

(** C2 (as amended). When the exact lookup misses and the local
    part has a plus, the second and last key looked up is
    [local[:i] + "@" + domain] with [i] the index of the FIRST plus of the
    local part: nothing before position [i] is a plus.  (With a single
    plus the first is also the last.) *)
Theorem plus_base_cut_at_first_plus (rt : Runtime) (message : EmailMessage) (env : Env) :
  let rcpt := splitAddress (to message) in
  accepted message env ->
  answers env (full rcpt) None ->
  JS.occurs "+" (local rcpt) ->
  exists i p q,
    local rcpt = p ++ String "+" q
    /\ ~ JS.occurs "+" p
    /\ i = JS.len p
    /\ i = JS.indexOf "+" (local rcpt)
    /\ JS.slice (local rcpt) 0 i = p
    /\ lookups (trace (email rt message env))
       = [full rcpt; JS.slice (local rcpt) 0 i ++ "@" ++ domain rcpt].
Proof.
  intros rcpt A E O.
  destruct (JSFacts.indexOf_found _ _ O) as [p [q [El [N I]]]].
  exists (JS.len p), p, q.
  assert (S : JS.slice (local rcpt) 0 (JS.len p) = p).
  { rewrite El. apply JSFacts.slice_prefix. }
  assert (P : plusBase rcpt = Some (p ++ "@" ++ domain rcpt)).
  { apply plusBase_some. now exists p, q. }
  repeat split; auto. rewrite S.
  set (base := p ++ "@" ++ domain rcpt) in *.
  destruct (select_fault (DB env) base) as [err|] eqn:F1.
  { now rewrite (email_base_fault _ _ _ base A E P err F1). }
  destruct (aliasOf env base) as [row|] eqn:L1.
  - destruct (Z.eq_dec (allow_plus row) 1) as [AP | AP].
    + rewrite (email_base_tag _ _ _ base A E P row) by (trivial; now split).
      unfold trace at 1, fst. simpl. now rewrite deliver_lookups.
    + rewrite (email_base_none _ _ _ base A E P (Some row)).
      * now rewrite noMatch_run.
      * now split.
      * right. now exists row.
  - rewrite (email_base_none _ _ _ base A E P None).
    + now rewrite noMatch_run.
    + now split.
    + now left.
Qed.

Lemma plus_base_cut_at_first_plus_witness :
  exists i p q,
    local (splitAddress "user+a+b@example.com") = p ++ String "+" q
    /\ ~ JS.occurs "+" p
    /\ i = JS.len p
    /\ i = JS.indexOf "+" (local (splitAddress "user+a+b@example.com"))
    /\ JS.slice (local (splitAddress "user+a+b@example.com")) 0 i = p
    /\ lookups (trace (email sampleRuntime (inbound "user+a+b@example.com")
                         (sampleEnv [])))
       = [full (splitAddress "user+a+b@example.com");
          JS.slice (local (splitAddress "user+a+b@example.com")) 0 i
          ++ "@" ++ domain (splitAddress "user+a+b@example.com")].
Proof.
  apply (plus_base_cut_at_first_plus sampleRuntime (inbound "user+a+b@example.com")
           (sampleEnv [])).
  - unfold accepted. vm_compute. split; [discriminate | reflexivity].
  - unfold answers. vm_compute. now split.
  - vm_compute. tauto.
Defined.

(** C2 as stated fails: for [user+a+b@example.com] the base looked
    up is [user@example.com], while cutting the local part at its last
    plus gives [user+a@example.com], which is never looked up. *)
Lemma last_plus_counterexample :
  let message := inbound "user+a+b@example.com" in
  let rcpt := splitAddress (to message) in
  JS.occurs "+" (local rcpt)
  /\ base_at_last_plus rcpt = "user+a@example.com"
  /\ plusBase rcpt = Some "user@example.com"
  /\ lookups (trace (email sampleRuntime message (sampleEnv [])))
     = ["user+a+b@example.com"; "user@example.com"]
  /\ ~ (forall r : Address,
          JS.occurs "+" (local r) -> plusBase r = Some (base_at_last_plus r)).
Proof.
  assert (O : JS.occurs "+" (local (splitAddress "user+a+b@example.com"))).
  { vm_compute. tauto. }
  cbv zeta. split; [exact O|].
  split; [vm_compute; reflexivity|].
  split; [vm_compute; reflexivity|].
  split; [vm_compute; reflexivity|].
  intros H. specialize (H (splitAddress "user+a+b@example.com") O).
  vm_compute in H. discriminate.
Qed.

(** C4 (as amended). When the exact lookup finds nothing and the
    store answers every query: the message is routed as ["base+tag"] if
    and only if the plus-tag base is an alias of the store with
    [allow_plus = 1]; it is forwarded, to that alias's [forward_to], if
    and only if moreover that destination lies outside the worker's
    domain and [message.forward] accepts it; and when the local part has
    a plus but the base alias is missing or has [allow_plus <> 1], the
    route is ["none"], the message is rejected with [550 No such user]
    and [forward] is never called. *)
Theorem plus_tag_resolution (rt : Runtime) (message : EmailMessage) (env : Env) :
  let rcpt := splitAddress (to message) in
  let run := email rt message env in
  accepted message env ->
  (forall key, select_fault (DB env) key = None) ->
  aliasOf env (full rcpt) = None ->
  (map Entry.route (consoles (trace run)) = ["base+tag"]
   <-> exists base row, plusEnabled message env base row)
  /\ (forall dest,
        forwarded (trace run) = [dest]
        <-> exists base row,
              plusEnabled message env base row
              /\ dest = forward_to row
              /\ wouldLoop (forward_to row) env = false
              /\ forward_fault message (forward_to row) = None)
  /\ (forall base,
        plusBase rcpt = Some base ->
        aliasOf env base = None
        \/ (exists row, aliasOf env base = Some row /\ allow_plus row <> 1) ->
        map Entry.route (consoles (trace run)) = ["none"]
        /\ rejects (trace run) = ["550 No such user at " ++ getDomain env]
        /\ forwards (trace run) = []).
Proof.
  intros rcpt run A F L. subst run.
  rewrite (email_after_exact_miss rt message env A F L). fold rcpt.
  unfold plusEnabled. fold rcpt. rewrite trace_pair.
  destruct (plusBase rcpt) as [base|] eqn:P.
  2: { rewrite noMatch_run. unfold trace, fst. simpl.
       repeat split; try discriminate.
       - intros [b [r [K _]]]. discriminate.
       - intros [b [r [[K _] _]]]. discriminate. }
  destruct (aliasOf env base) as [row|] eqn:L1.
  2: { rewrite noMatch_run. unfold trace, fst. simpl.
       repeat split; try discriminate.
       - intros [b [r [K [K' _]]]]. congruence.
       - intros [b [r [[K [K' _]] _]]]. congruence. }
  destruct (Z.eqb_spec (allow_plus row) 1) as [AP | AP].
  - split; [|split].
    + cbn [consoles]. rewrite deliver_routes. split; [|reflexivity].
      intros _. now exists base, row.
    + intros dest. cbn [forwarded]. split.
      * intros H.
        destruct (deliver_forwarded_cases rt message env "base+tag" (Some base) row)
          as [K | K]; [|congruence].
        pose proof (proj1 (deliver_forwarded_iff _ _ _ _ _ _) K) as [W FF].
        exists base, row. repeat split; trivial. congruence.
      * intros [b [r [[K [K' _]] [-> [W FF]]]]].
        assert (b = base) by congruence. subst b.
        assert (r = row) by congruence. subst r.
        now apply deliver_forwarded_iff.
    + intros b Pb [N | [r [K N]]].
      * congruence.
      * assert (b = base) by congruence. subst b.
        assert (r = row) by congruence. subst r. tauto.
  - rewrite noMatch_run. unfold trace, fst. simpl.
    repeat split; try discriminate.
    + intros [b [r [K [K' K'']]]].
      assert (b = base) by congruence. subst b.
      assert (r = row) by congruence. subst r. tauto.
    + intros [b [r [[K [K' K'']] _]]].
      assert (b = base) by congruence. subst b.
      assert (r = row) by congruence. subst r. tauto.
Qed.

Lemma plus_tag_resolution_witness :
  map Entry.route
    (consoles (trace (email sampleRuntime (inbound "hello+promo@example.com")
                        (sampleEnv [mkAlias "hello@example.com"
                                      "you@inbox.example.net" 1]))))
  = ["base+tag"]
  /\ forwarded (trace (email sampleRuntime (inbound "hello+promo@example.com")
                         (sampleEnv [mkAlias "hello@example.com"
                                       "you@inbox.example.net" 1])))
     = ["you@inbox.example.net"]
  /\ rejects (trace (email sampleRuntime (inbound "hello+x@example.com")
                       (sampleEnv [mkAlias "hello@example.com"
                                     "you@inbox.example.net" 0])))
     = ["550 No such user at example.com"].
Proof.
  assert (A1 : accepted (inbound "hello+promo@example.com")
                 (sampleEnv [mkAlias "hello@example.com" "you@inbox.example.net" 1])).
  { split; vm_compute; [discriminate | reflexivity]. }
  assert (A2 : accepted (inbound "hello+x@example.com")
                 (sampleEnv [mkAlias "hello@example.com" "you@inbox.example.net" 0])).
  { split; vm_compute; [discriminate | reflexivity]. }
  assert (L1 : aliasOf (sampleEnv [mkAlias "hello@example.com" "you@inbox.example.net" 1])
                 (full (splitAddress (to (inbound "hello+promo@example.com")))) = None).
  { vm_compute. reflexivity. }
  assert (L2 : aliasOf (sampleEnv [mkAlias "hello@example.com" "you@inbox.example.net" 0])
                 (full (splitAddress (to (inbound "hello+x@example.com")))) = None).
  { vm_compute. reflexivity. }
  destruct (plus_tag_resolution sampleRuntime (inbound "hello+promo@example.com")
              (sampleEnv [mkAlias "hello@example.com" "you@inbox.example.net" 1])
              A1 (fun _ => eq_refl) L1) as [R1 [R2 _]].
  destruct (plus_tag_resolution sampleRuntime (inbound "hello+x@example.com")
              (sampleEnv [mkAlias "hello@example.com" "you@inbox.example.net" 0])
              A2 (fun _ => eq_refl) L2) as [_ [_ R3]].
  split; [|split].
  - apply R1.
    exists "hello@example.com", (mkAlias "hello@example.com" "you@inbox.example.net" 1).
    unfold plusEnabled. vm_compute. repeat split.
  - apply R2.
    exists "hello@example.com", (mkAlias "hello@example.com" "you@inbox.example.net" 1).
    unfold plusEnabled. vm_compute. repeat split.
  - refine (proj1 (proj2 (R3 "hello@example.com" _ _))).
    + vm_compute. reflexivity.
    + right. exists (mkAlias "hello@example.com" "you@inbox.example.net" 0).
      split; [vm_compute; reflexivity | discriminate].
Defined.

(** C4 as stated fails: the base alias [hello@example.com] exists
    with [allow_plus = 1], yet the message is not forwarded, because its
    destination lies in the worker's own domain; nor is the outcome
    NoMatch.  The same happens when the transport refuses the forward. *)
Lemma plus_enabled_not_forwarded_counterexample :
  let message := inbound "hello+x@example.com" in
  let row := mkAlias "hello@example.com" "me@example.com" 1 in
  let env := sampleEnv [row] in
  let run := email sampleRuntime message env in
  accepted message env
  /\ aliasOf env (full (splitAddress (to message))) = None
  /\ plusEnabled message env "hello@example.com" row
  /\ forwards (trace run) = []
  /\ rejects (trace run) = ["550 Routing loop detected"]
  /\ ~ ((exists dest, forwarded (trace run) = [dest])
        <-> exists base r, plusEnabled message env base r).
Proof.
  cbv zeta.
  assert (P : plusEnabled (inbound "hello+x@example.com")
                (sampleEnv [mkAlias "hello@example.com" "me@example.com" 1])
                "hello@example.com"
                (mkAlias "hello@example.com" "me@example.com" 1)).
  { unfold plusEnabled. vm_compute. repeat split. }
  split; [split; vm_compute; [discriminate | reflexivity]|].
  split; [vm_compute; reflexivity|]. split; [exact P|].
  split; [vm_compute; reflexivity|]. split; [vm_compute; reflexivity|].
  intros [_ H]. destruct H as [dest H]; [eauto|].
  vm_compute in H. discriminate.
Qed.

(* ================================================================== *)
(** * Further properties of the email worker *)

Section Anatomy.
Variables (rt : Runtime) (message : EmailMessage) (env : Env).

Let rcpt := splitAddress (to message).
Let D := getDomain env.

Lemma deliver_anatomy (kind : string) (base : option string) (row : Alias) :
  exists fw e rj,
    deliver rt message env kind base row
    = ((fw ++ logged rt env e ++ rj)%list, Normal tt)
    /\ Ending D fw e rj
    /\ Entry.route e = kind /\ Entry.base e = base
    /\ Entry.dest e = Some (forward_to row).
Proof.
  destruct (wouldLoop (forward_to row) env) eqn:W.
  - rewrite deliver_loop by exact W.
    eexists [], _, _. split; [reflexivity|]. split; [|now repeat split].
    eapply EndRejected; try reflexivity; discriminate.
  - destruct (forward_fault message (forward_to row)) as [err|] eqn:F.
    + rewrite (deliver_failed _ _ _ _ _ _ _ W F).
      eexists [_], _, _. split; [reflexivity|]. split; [|now repeat split].
      eapply EndUndelivered; reflexivity.
    + rewrite deliver_forwarded by assumption.
      eexists [_], _, []. split; [now rewrite app_nil_r|].
      split; [|now repeat split].
      eapply EndForwarded; reflexivity.
Qed.

Lemma noMatch_anatomy :
  exists e,
    noMatch rt message env
    = ((logged rt env e ++ [SetReject (rejection D NoMatch)])%list, Normal tt)
    /\ Ending D [] e [SetReject (rejection D NoMatch)]
    /\ Entry.route e = "none" /\ Entry.dest e = None.
Proof.
  rewrite noMatch_run. eexists. split; [reflexivity|].
  split; [|now split].
  eapply EndRejected; try reflexivity; discriminate.
Qed.

(** Every run: the lookups, then the ending. *)
Lemma email_anatomy :
  exists keys fw e rj,
    email rt message env
    = ((map Select keys ++ fw ++ logged rt env e ++ rj)%list, Normal tt)
    /\ Ending D fw e rj
    /\ (keys = []
        \/ (accepted message env /\ keys = [full rcpt])
        \/ (accepted message env
            /\ exists base, plusBase rcpt = Some base /\ keys = [full rcpt; base])).
Proof.
  destruct (accepted_dec message env) as [A | NA].
  2: { rewrite email_invalid by exact NA.
       eexists [], [], _, _. split; [reflexivity|]. split; [|now left].
       eapply EndRejected; try reflexivity; discriminate. }
  fold rcpt.
  destruct (select_fault (DB env) (full rcpt)) as [err|] eqn:F0.
  { rewrite (email_exact_fault _ _ _ err A F0).
    eexists [_], [], _, _. split; [reflexivity|].
    split; [|right; left; now split].
    eapply EndException; reflexivity. }
  destruct (aliasOf env (full rcpt)) as [row|] eqn:L0.
  { rewrite (email_exact _ _ _ row) by (repeat split; assumption || apply A).
    destruct (deliver_anatomy "exact" None row) as [fw [e [rj [E [H _]]]]].
    rewrite E. exists [full rcpt], fw, e, rj.
    split; [reflexivity|]. split; [exact H|]. right; left; now split. }
  assert (E : answers env (full rcpt) None) by now split.
  destruct (plusBase rcpt) as [base|] eqn:P.
  2: { rewrite email_no_plus by assumption.
       destruct noMatch_anatomy as [e [En [H _]]]. rewrite En.
       exists [full rcpt], [], e, [SetReject (rejection D NoMatch)].
       split; [reflexivity|]. split; [exact H|]. right; left; now split. }
  assert (K : accepted message env
              /\ exists b, Some base = Some b /\ [full rcpt; base] = [full rcpt; b]).
  { split; [exact A|]. now exists base. }
  destruct (select_fault (DB env) base) as [err|] eqn:F1.
  { rewrite (email_base_fault _ _ _ base A E P err F1).
    eexists [_; _], [], _, _. split; [reflexivity|].
    split; [|right; right; exact K].
    eapply EndException; reflexivity. }
  assert (NM : email rt message env
               = (Select (full rcpt) :: Select base :: trace (noMatch rt message env),
                  Normal tt) ->
               exists keys fw e rj,
                 email rt message env
                 = ((map Select keys ++ fw ++ logged rt env e ++ rj)%list, Normal tt)
                 /\ Ending D fw e rj
                 /\ (keys = []
                     \/ (accepted message env /\ keys = [full rcpt])
                     \/ (accepted message env
                         /\ exists b, Some base = Some b
                                      /\ keys = [full rcpt; b]))).
  { intros ->. destruct noMatch_anatomy as [e [En [H _]]]. rewrite En.
    exists [full rcpt; base], [], e, [SetReject (rejection D NoMatch)].
    split; [reflexivity|]. split; [exact H|]. right; right; exact K. }
  destruct (aliasOf env base) as [row|] eqn:L1.
  - destruct (Z.eq_dec (allow_plus row) 1) as [AP | AP].
    + rewrite (email_base_tag _ _ _ base A E P row) by (trivial; now split).
      destruct (deliver_anatomy "base+tag" (Some base) row) as [fw [e [rj [Ed [H _]]]]].
      rewrite Ed. exists [full rcpt; base], fw, e, rj.
      split; [reflexivity|]. split; [exact H|]. right; right; exact K.
    + apply NM. apply (email_base_none _ _ _ base A E P (Some row)); [now split|].
      right. now exists row.
  - apply NM. apply (email_base_none _ _ _ base A E P None); [now split | now left].
Qed.

End Anatomy.

(** X1. The calls of every run come in a fixed order: at most
    two alias lookups, then at most one call of [message.forward] (a
    failed forward is not retried), then the console line and the write
    to [email_logs], then at most one [setReject], which is therefore the
    last call and always follows the log write.  The first lookup is for
    the full recipient, the second for its plus-tag base. *)
Theorem calls_in_order (rt : Runtime) (message : EmailMessage) (env : Env) :
  exists keys fw e rj,
    trace (email rt message env)
    = (map Select keys ++ fw
         ++ [Console e; Insert (logRow rt e) (insert_ok env (logRow rt e))]
         ++ rj)%list
    /\ (length keys <= 2)%nat
    /\ keys = firstn (length keys)
                 (full (splitAddress (to message))
                    :: match plusBase (splitAddress (to message)) with
                       | Some base => [base]
                       | None => []
                       end)
    /\ (fw = [] \/ exists d ok, fw = [Forward d ok])
    /\ (rj = [] \/ exists s, rj = [SetReject s]).
Proof.
  destruct (email_anatomy rt message env) as [keys [fw [e [rj [E [H K]]]]]].
  exists keys, fw, e, rj. rewrite E. split; [reflexivity|].
  split; [|split; [|split]].
  - destruct K as [-> | [[_ ->] | [_ [b [_ ->]]]]]; simpl; lia.
  - destruct K as [-> | [[_ ->] | [_ [b [-> ->]]]]]; reflexivity.
  - destruct H; [right | right | left | left]; eauto.
  - destruct H; [left | right | right | right]; eauto.
Qed.

(** X2. The entry a run logs agrees with what the transport
    saw: its result is ["forwarded"] exactly when [forward] returned
    normally, and then no error text is logged and its [dest] is the
    address forwarded to; whenever [setReject] was called the result is
    ["rejected"] or ["error"] and an error text is logged. *)
Theorem log_agrees_with_outcome (rt : Runtime) (message : EmailMessage) (env : Env) :
  exists e,
    consoles (trace (email rt message env)) = [e]
    /\ inserts (trace (email rt message env)) = [logRow rt e]
    /\ (Entry.result e = "forwarded"
        <-> exists d, forwarded (trace (email rt message env)) = [d]
                      /\ Entry.dest e = Some d)
    /\ (Entry.result e = "forwarded" <-> rejects (trace (email rt message env)) = [])
    /\ (rejects (trace (email rt message env)) <> [] ->
        (Entry.result e = "rejected" \/ Entry.result e = "error")
        /\ exists err, Entry.error e = Some err)
    /\ (Entry.result e = "forwarded" -> Entry.error e = None).
Proof.
  destruct (email_anatomy rt message env) as [keys [fw [e [rj [E [H _]]]]]].
  exists e. rewrite E, trace_pair.
  rewrite consoles_selects, inserts_selects, forwarded_selects, rejects_selects.
  destruct H as [e d R Dd Er | e d err R Dd Er | e r err N1 N2 R Er | e err Ro R Dd Er];
    simpl; rewrite R;
    (split; [reflexivity|]); (split; [reflexivity|]);
    repeat split; try discriminate; try congruence; eauto;
    try (intros [d' [K _]]; discriminate).
Qed.

Lemma log_agrees_with_outcome_witness :
  exists e,
    consoles (trace (email sampleRuntime (inbound "a@example.com")
                       (sampleEnv [mkAlias "a@example.com" "b@example.com" 1])))
    = [e]
    /\ (Entry.result e = "rejected" \/ Entry.result e = "error").
Proof.
  destruct (log_agrees_with_outcome sampleRuntime (inbound "a@example.com")
              (sampleEnv [mkAlias "a@example.com" "b@example.com" 1]))
    as [e [C [_ [_ [_ [R _]]]]]].
  exists e. split; [exact C|].
  apply R. vm_compute. discriminate.
Defined.

(** The two ways an alias is resolved, for the properties that hold for
    both. *)
Lemma resolved_run (rt : Runtime) (message : EmailMessage) (env : Env) (row : Alias) :
  resolvesExact message env row
  \/ (exists base, resolvesBaseTag message env base row) ->
  exists keys kind base,
    email rt message env
    = ((map Select keys ++ trace (deliver rt message env kind base row))%list,
       Normal tt)
    /\ ((kind = "exact" /\ base = None
         /\ keys = [full (splitAddress (to message))])
        \/ (kind = "base+tag"
            /\ plusBase (splitAddress (to message)) = base
            /\ exists b, base = Some b
                         /\ keys = [full (splitAddress (to message)); b])).
Proof.
  intros [R | [b [A [E [P [B AP]]]]]].
  - exists [full (splitAddress (to message))], "exact", None.
    rewrite (email_exact _ _ _ row R). split; [reflexivity|]. now left.
  - exists [full (splitAddress (to message)); b], "base+tag", (Some b).
    rewrite (email_base_tag _ _ _ b A E P row B AP).
    split; [reflexivity|]. right. repeat split; trivial. now exists b.
Qed.

Lemma transport_selects (keys : list string) (tr : list Event) :
  transport (map Select keys ++ tr) = transport tr.
Proof. induction keys; simpl; auto. Qed.

Lemma lookups_selects (keys : list string) (tr : list Event) :
  lookups (map Select keys ++ tr) = (keys ++ lookups tr)%list.
Proof. induction keys; simpl; congruence. Qed.

(** X3. Delivery failure.  When an alias is resolved (by exact
    match or by plus addressing), its destination is outside the worker's
    domain and [message.forward] throws [err]: [forward] was called
    exactly once, with the stored [forward_to]; the entry is logged with
    result ["error"], the destination and the text of [err]; and the
    message is rejected with ["550 Destination not verified"], after the
    log write. *)
Theorem delivery_failure_rejected (rt : Runtime) (message : EmailMessage)
    (env : Env) (row : Alias) (err : string) :
  resolvesExact message env row
  \/ (exists base, resolvesBaseTag message env base row) ->
  wouldLoop (forward_to row) env = false ->
  forward_fault message (forward_to row) = Some err ->
  let run := email rt message env in
  transport (trace run)
  = [Forward (forward_to row) false; SetReject "550 Destination not verified"]
  /\ map Entry.result (consoles (trace run)) = ["error"]
  /\ map Entry.error (consoles (trace run)) = [Some err]
  /\ map Entry.dest (consoles (trace run)) = [Some (forward_to row)]
  /\ (exists keys e,
        trace run
        = (map Select keys
             ++ [Forward (forward_to row) false; Console e;
                 Insert (logRow rt e) (insert_ok env (logRow rt e));
                 SetReject "550 Destination not verified"])%list)
  /\ completion run = Normal tt.
Proof.
  intros R W F run. subst run.
  destruct (resolved_run rt message env row R) as [keys [kind [base [E _]]]].
  rewrite E, (deliver_failed _ _ _ _ _ _ _ W F), !trace_pair.
  rewrite transport_selects, !consoles_selects.
  repeat split.
  eexists keys, _. reflexivity.
Qed.

Lemma delivery_failure_rejected_witness :
  transport
    (trace (email sampleRuntime
              (mkMessage "sender@remote.test" "hello+x@example.com" 10 None
                 (fun _ => Some "Error: destination address not verified"))
              (sampleEnv [mkAlias "hello@example.com" "you@inbox.example.net" 1])))
  = [Forward "you@inbox.example.net" false;
     SetReject "550 Destination not verified"].
Proof.
  refine (proj1 (delivery_failure_rejected sampleRuntime
                   (mkMessage "sender@remote.test" "hello+x@example.com" 10 None
                      (fun _ => Some "Error: destination address not verified"))
                   (sampleEnv [mkAlias "hello@example.com" "you@inbox.example.net" 1])
                   (mkAlias "hello@example.com" "you@inbox.example.net" 1)
                   "Error: destination address not verified" _ _ _)).
  - right. exists "hello@example.com".
    unfold resolvesBaseTag, accepted, answers. vm_compute.
    repeat split; discriminate.
  - vm_compute. reflexivity.
  - reflexivity.
Defined.

(** X4. Successful delivery.  When an alias is resolved by exact
    match (whatever its [allow_plus]) or by plus addressing, its
    destination is outside the worker's domain and [message.forward]
    returns: the only call the transport sees is that forward, made with
    [forward_to] exactly as stored; it comes before the log write; the
    entry has result ["forwarded"], no error text, the route taken, and
    [base] set only on the plus-tag route. *)
Theorem delivery_success_logged (rt : Runtime) (message : EmailMessage)
    (env : Env) (row : Alias) :
  resolvesExact message env row
  \/ (exists base, resolvesBaseTag message env base row) ->
  wouldLoop (forward_to row) env = false ->
  forward_fault message (forward_to row) = None ->
  let run := email rt message env in
  transport (trace run) = [Forward (forward_to row) true]
  /\ (exists keys e,
        trace run
        = (map Select keys
             ++ [Forward (forward_to row) true; Console e;
                 Insert (logRow rt e) (insert_ok env (logRow rt e))])%list
        /\ Entry.result e = "forwarded"
        /\ Entry.error e = None
        /\ Entry.dest e = Some (forward_to row)
        /\ ((Entry.route e = "exact" /\ Entry.base e = None)
            \/ (Entry.route e = "base+tag"
                /\ Entry.base e = plusBase (splitAddress (to message)))))
  /\ completion run = Normal tt.
Proof.
  intros R W F run. subst run.
  destruct (resolved_run rt message env row R) as [keys [kind [base [E K]]]].
  rewrite E, deliver_forwarded by assumption. rewrite !trace_pair.
  rewrite transport_selects.
  repeat split.
  eexists keys, _. split; [reflexivity|]. repeat split.
  destruct K as [[-> [-> _]] | [-> [-> _]]]; [left | right]; now split.
Qed.

Lemma delivery_success_logged_witness :
  transport
    (trace (email sampleRuntime (inbound "hello@example.com")
              (sampleEnv [mkAlias "hello@example.com" " You@Inbox.Example.NET" 0])))
  = [Forward " You@Inbox.Example.NET" true].
Proof.
  refine (proj1 (delivery_success_logged sampleRuntime (inbound "hello@example.com")
                   (sampleEnv [mkAlias "hello@example.com" " You@Inbox.Example.NET" 0])
                   (mkAlias "hello@example.com" " You@Inbox.Example.NET" 0) _ _ _)).
  - left. unfold resolvesExact, accepted, answers. vm_compute.
    repeat split; discriminate.
  - vm_compute. reflexivity.
  - reflexivity.
Defined.

(** X5. Failure of the alias store.  When a lookup throws [err]
    (the first one, or the one for the plus-tag base after the first
    found nothing), the handler does not throw: the failed lookup is the
    last, no forward is made, the entry is logged with route
    ["exception"], result ["error"] and the text of [err], and the
    message is rejected with ["550 Internal error"]. *)
Theorem lookup_failure_rejected (rt : Runtime) (message : EmailMessage)
    (env : Env) (err : string) (keys : list string) :
  let rcpt := splitAddress (to message) in
  let run := email rt message env in
  accepted message env ->
  (keys = [full rcpt] /\ select_fault (DB env) (full rcpt) = Some err)
  \/ (exists base,
        keys = [full rcpt; base]
        /\ answers env (full rcpt) None
        /\ plusBase rcpt = Some base
        /\ select_fault (DB env) base = Some err) ->
  lookups (trace run) = keys
  /\ transport (trace run) = [SetReject "550 Internal error"]
  /\ map Entry.route (consoles (trace run)) = ["exception"]
  /\ map Entry.result (consoles (trace run)) = ["error"]
  /\ map Entry.error (consoles (trace run)) = [Some err]
  /\ map Entry.dest (consoles (trace run)) = [None]
  /\ completion run = Normal tt.
Proof.
  intros rcpt run A H. subst run.
  destruct H as [[-> F] | [base [-> [E [P F]]]]].
  - rewrite (email_exact_fault _ _ _ err A F). repeat split.
  - rewrite (email_base_fault _ _ _ base A E P err F). repeat split.
Qed.

Lemma lookup_failure_rejected_witness :
  transport
    (trace (email sampleRuntime (inbound "hello@example.com")
              (mkEnv (Some "example.com")
                 (mkD1 [] (fun _ => Some "D1_ERROR: no such table: aliases")
                    no_fault))))
  = [SetReject "550 Internal error"].
Proof.
  refine (proj1 (proj2
            (lookup_failure_rejected sampleRuntime (inbound "hello@example.com")
               (mkEnv (Some "example.com")
                  (mkD1 [] (fun _ => Some "D1_ERROR: no such table: aliases")
                     no_fault))
               "D1_ERROR: no such table: aliases" ["hello@example.com"] _ _))).
  - split; vm_compute; [discriminate | reflexivity].
  - left. split; vm_compute; reflexivity.
Defined.

(** X6. No alias and no plus.  When the exact lookup finds
    nothing and the local part has no plus sign, the store is queried
    once only, nothing is forwarded, the entry is logged with route
    ["none"] and the message is rejected with [550 No such user at] the
    worker's domain. *)
Theorem unknown_recipient_rejected (rt : Runtime) (message : EmailMessage) (env : Env) :
  let rcpt := splitAddress (to message) in
  let run := email rt message env in
  accepted message env ->
  answers env (full rcpt) None ->
  ~ JS.occurs "+" (local rcpt) ->
  lookups (trace run) = [full rcpt]
  /\ transport (trace run) = [SetReject ("550 No such user at " ++ getDomain env)]
  /\ map Entry.route (consoles (trace run)) = ["none"]
  /\ map Entry.result (consoles (trace run)) = ["rejected"]
  /\ map Entry.dest (consoles (trace run)) = [None]
  /\ completion run = Normal tt.
Proof.
  intros rcpt run A E N. subst run.
  rewrite (email_no_plus _ _ _ A E) by now apply plusBase_none.
  rewrite noMatch_run. repeat split.
Qed.

Lemma unknown_recipient_rejected_witness :
  transport (trace (email sampleRuntime (inbound "nobody@example.com")
                      (sampleEnv [mkAlias "hello@example.com" "you@inbox.example.net" 1])))
  = [SetReject "550 No such user at example.com"].
Proof.
  refine (proj1 (proj2
            (unknown_recipient_rejected sampleRuntime (inbound "nobody@example.com")
               (sampleEnv [mkAlias "hello@example.com" "you@inbox.example.net" 1])
               _ _ _))).
  - split; vm_compute; [discriminate | reflexivity].
  - split; vm_compute; reflexivity.
  - vm_compute. intuition discriminate.
Defined.

(** X7. A recipient that is not an address.  When the recipient
    has no [@], or nothing before its last [@] once normalized, it is
    rejected as an invalid recipient whatever the worker's domain: the
    store is not queried, nothing is forwarded, and the logged error
    names the recipient domain as [<none>]. *)
Theorem malformed_recipient_rejected (rt : Runtime) (message : EmailMessage) (env : Env) :
  let run := email rt message env in
  ~ JS.occurs "@" (to message)
  \/ (exists d, norm (to message) = String "@" d /\ ~ JS.occurs "@" d) ->
  trace run
  = (logged rt env
       (msgMeta rt message env "invalid-domain" None None "rejected"
          (Some ("recipient domain <none> does not match worker domain "
                 ++ getDomain env)%string))
     ++ [SetReject "550 Invalid recipient for this domain"])%list
  /\ lookups (trace run) = []
  /\ forwards (trace run) = []
  /\ completion run = Normal tt.
Proof.
  intros run H. subst run.
  pose proof (splitAddress_invalid _ H) as S.
  rewrite email_invalid by (left; now rewrite S).
  rewrite S. repeat split.
Qed.

Lemma malformed_recipient_rejected_witness :
  lookups (trace (email sampleRuntime (inbound "@example.com")
                    (sampleEnv [mkAlias "@example.com" "you@inbox.example.net" 1])))
  = [].
Proof.
  refine (proj1 (proj2
            (malformed_recipient_rejected sampleRuntime (inbound "@example.com")
               (sampleEnv [mkAlias "@example.com" "you@inbox.example.net" 1]) _))).
  right. exists "example.com". split; [vm_compute; reflexivity|].
  vm_compute. intuition discriminate.
Defined.

(* ------------------------------------------------------------------ *)
(** ** The recipient is matched without regard to case and padding *)

Lemma splitAddress_norm (t t' : string) :
  norm t = norm t' -> splitAddress t = splitAddress t'.
Proof. unfold splitAddress. now intros ->. Qed.

Lemma alike_bind {A B} (f : Event -> Event) (m m' : Async A) (k k' : A -> Async B) :
  alike f m m' ->
  (forall a, alike f (k a) (k' a)) ->
  alike f (bind m k) (bind m' k').
Proof.
  destruct m as [tr c], m' as [tr' c']. intros [Ht Hc] Hk.
  unfold trace, completion, fst, snd in Ht, Hc. subst c'.
  destruct c as [a | e].
  - destruct (Hk a) as [Hkt Hkc]. rewrite !bind_normal.
    split; [|exact Hkc].
    unfold trace at 1 3, fst. rewrite !map_app. congruence.
  - rewrite !bind_throw. now split.
Qed.

Lemma alike_try_catch {A} (f : Event -> Event) (m m' : Async A)
    (h h' : string -> Async A) :
  alike f m m' ->
  (forall e, alike f (h e) (h' e)) ->
  alike f (try_catch m h) (try_catch m' h').
Proof.
  destruct m as [tr c], m' as [tr' c']. intros [Ht Hc] Hh.
  unfold trace, completion, fst, snd in Ht, Hc. subst c'.
  destruct c as [a | e].
  - rewrite !try_catch_normal. now split.
  - destruct (Hh e) as [Hht Hhc]. rewrite !try_catch_throw.
    split; [|exact Hhc].
    unfold trace at 1 3, fst. rewrite !map_app. congruence.
Qed.

Lemma alike_persistLog (rt : Runtime) (env : Env) (e e' : Entry.t) :
  blind_to (Console e) = blind_to (Console e') ->
  alike blind_to (persistLog rt env e) (persistLog rt env e').
Proof.
  intros H. rewrite !persistLog_run. split; [|reflexivity].
  destruct e, e'. simpl in H. injection H as; subst.
  reflexivity.
Qed.

Ltac alike_steps :=
  repeat first
    [ apply alike_persistLog; reflexivity
    | apply alike_bind; [|intros ?]
    | apply alike_try_catch; [|intros ?]
    | split; reflexivity ].

Section Retarget.
Variables (rt : Runtime) (message : EmailMessage) (env : Env) (t : string).

Let message' := retarget message t.

Lemma alike_deliver (kind : string) (base : option string) (row : Alias) :
  alike blind_to (deliver rt message' env kind base row)
                 (deliver rt message env kind base row).
Proof.
  unfold deliver. destruct (wouldLoop (forward_to row) env); alike_steps.
Qed.

Lemma alike_noMatch :
  alike blind_to (noMatch rt message' env) (noMatch rt message env).
Proof. unfold noMatch. alike_steps. Qed.

Lemma alike_email :
  norm t = norm (to message) ->
  alike blind_to (email rt message' env) (email rt message env).
Proof.
  intros H. apply splitAddress_norm in H.
  unfold email. apply alike_try_catch.
  2: { intros err. unfold lastResort. alike_steps. }
  unfold route. change (to message') with t. rewrite H.
  destruct (negb _ || negb _); [alike_steps|].
  apply alike_bind; [split; reflexivity|]. intros [row|].
  - apply alike_deliver.
  - destruct (plusBase _) as [base|]; [|apply alike_noMatch].
    apply alike_bind; [split; reflexivity|].
    intros [row|]; [|apply alike_noMatch].
    destruct (allow_plus row =? 1); [apply alike_deliver | apply alike_noMatch].
Qed.

End Retarget.

Lemma lookups_blind (tr : list Event) : lookups (map blind_to tr) = lookups tr.
Proof.
  induction tr as [|ev tr IH]; [reflexivity|].
  destruct ev; simpl; now rewrite ?IH.
Qed.

Lemma transport_blind (tr : list Event) : transport (map blind_to tr) = transport tr.
Proof.
  induction tr as [|ev tr IH]; [reflexivity|].
  destruct ev; simpl; now rewrite ?IH.
Qed.

(** X8. Two recipients that normalize to the same string
    (they differ in letter case or in surrounding white space only) are
    routed alike: the same lookups, the same forward and rejection, the
    same completion, and the same logged entry and row apart from the raw
    [to] they record. *)
Theorem recipient_case_insensitive (rt : Runtime) (message : EmailMessage)
    (env : Env) (t : string) :
  norm t = norm (to message) ->
  let run := email rt message env in
  let run' := email rt (retarget message t) env in
  lookups (trace run') = lookups (trace run)
  /\ transport (trace run') = transport (trace run)
  /\ map blind_to (trace run') = map blind_to (trace run)
  /\ completion run' = completion run.
Proof.
  intros H run run'. subst run run'.
  destruct (alike_email rt message env t H) as [T C].
  split; [now rewrite <- lookups_blind, T, lookups_blind|].
  split; [now rewrite <- transport_blind, T, transport_blind|].
  now split.
Qed.

Lemma recipient_case_insensitive_witness :
  transport (trace (email sampleRuntime (retarget (inbound "hello@example.com")
                                           "  Hello@EXAMPLE.com ")
                      (sampleEnv [mkAlias "hello@example.com" "you@inbox.example.net" 1])))
  = transport (trace (email sampleRuntime (inbound "hello@example.com")
                        (sampleEnv [mkAlias "hello@example.com" "you@inbox.example.net" 1]))).
Proof.
  refine (proj1 (proj2
            (recipient_case_insensitive sampleRuntime (inbound "hello@example.com")
               (sampleEnv [mkAlias "hello@example.com" "you@inbox.example.net" 1])
               "  Hello@EXAMPLE.com " _))).
  vm_compute. reflexivity.
Defined.

(* ------------------------------------------------------------------ *)
(** ** The loop guard and the worker's domain *)

(** The two results of [splitAddress]. *)
Lemma splitAddress_cases (x : string) :
  splitAddress x = mkAddress "" "" (norm x)
  \/ exists p q,
       p <> "" /\ norm x = p ++ String "@" q /\ ~ JS.occurs "@" q
       /\ splitAddress x = mkAddress p q (norm x).
Proof.
  destruct (string_dec (local (splitAddress x)) "") as [E | N].
  - left. revert E. unfold splitAddress.
    destruct (JS.lastIndexOf "@" (norm x) <? 1) eqn:L; [reflexivity|].
    apply Z.ltb_ge in L. simpl. intros E.
    destruct (JSFacts.lastIndexOf_found "@" (norm x)) as [p [q [Ex [_ Hp]]]]; [lia|].
    rewrite Hp in E, L. rewrite Ex in E at 1. rewrite JSFacts.slice_prefix in E.
    subst p. cbn in L. lia.
  - right. destruct (splitAddress_valid x N) as [p [q [E [O [P S]]]]].
    now exists p, q.
Qed.

Lemma domain_of_address (p q : string) :
  p <> "" -> ~ JS.occurs "@" q ->
  forall x, norm x = p ++ String "@" q -> splitAddress x = mkAddress p q (norm x).
Proof.
  intros P O x E. unfold splitAddress. rewrite E.
  rewrite (JSFacts.lastIndexOf_split "@" p q O).
  assert (L : 1 <= JS.len p).
  { destruct p; [congruence|]. rewrite JSFacts.len_cons.
    pose proof (JSFacts.len_nonneg p). lia. }
  destruct (JS.len p <? 1) eqn:C; [apply Z.ltb_lt in C; lia|].
  rewrite JSFacts.slice_prefix. f_equal.
  change (p ++ String "@" q) with (p ++ String "@" "" ++ q).
  rewrite <- JSFacts.append_assoc.
  replace (JS.len p + 1) with (JS.len (p ++ String "@" "")).
  - apply JSFacts.sliceFrom_suffix.
  - rewrite JSFacts.len_append. reflexivity.
Qed.

(** X9. The loop guard fires exactly for destinations that,
    once trimmed and lower-cased, are a non-empty local part, an [@] and
    the worker's domain (with no further [@] in that domain).  So it
    ignores letter case and surrounding white space, and a destination
    without [@] or with nothing before its [@] never counts as a loop. *)
Theorem wouldLoop_exactly (forwardTo : string) (env : Env) :
  (wouldLoop forwardTo env = true
   <-> exists p, p <> ""
                 /\ norm forwardTo = p ++ "@" ++ getDomain env
                 /\ ~ JS.occurs "@" (getDomain env))
  /\ (forall other, norm other = norm forwardTo ->
                    wouldLoop other env = wouldLoop forwardTo env)
  /\ (~ JS.occurs "@" forwardTo -> wouldLoop forwardTo env = false).
Proof.
  unfold wouldLoop, isOurDomain. split; [|split].
  - split.
    + intros H. apply String.eqb_eq in H.
      destruct (splitAddress_cases forwardTo) as [S | [p [q [P [E [O S]]]]]];
        rewrite S in H; simpl in H.
      * pose proof (getDomain_truthy env) as T. rewrite <- H in T. discriminate.
      * subst q. now exists p.
    + intros [p [P [E O]]].
      rewrite (domain_of_address p (getDomain env) P O forwardTo E).
      apply String.eqb_refl.
  - intros other H. now rewrite (splitAddress_norm _ _ H).
  - intros N.
    rewrite (splitAddress_invalid forwardTo (or_introl N)). cbn [domain].
    apply String.eqb_neq. intros H.
    pose proof (getDomain_truthy env) as T. rewrite <- H in T. discriminate.
Qed.

Lemma wouldLoop_exactly_witness :
  wouldLoop "  Someone@Example.COM" (sampleEnv []) = true
  /\ wouldLoop "postmaster" (sampleEnv []) = false.
Proof.
  split.
  - apply (proj1 (wouldLoop_exactly "  Someone@Example.COM" (sampleEnv []))).
    exists "someone". split; [discriminate|].
    split; [vm_compute; reflexivity|]. vm_compute. intuition discriminate.
  - apply (proj2 (proj2 (wouldLoop_exactly "postmaster" (sampleEnv [])))).
    vm_compute. intuition discriminate.
Defined.

(** X10. The worker's domain is never empty and is always in
    normal form (trimmed, lower case): a [DOMAIN] variable that
    normalizes to a non-empty string is used in its normalized form, so
    [DOMAIN = " Example.COM "] routes as [example.com]. *)
Theorem getDomain_normalized (env : Env) :
  getDomain env <> ""
  /\ norm (getDomain env) = getDomain env
  /\ (forall d, DOMAIN env = Some d -> norm d <> "" -> getDomain env = norm d).
Proof.
  assert (K : forall d, DOMAIN env = Some d -> norm d <> "" -> getDomain env = norm d).
  { intros d E N. unfold getDomain. rewrite E.
    destruct d as [|c d]; [now contradiction N|].
    cbn [JS.truthy]. unfold JS.or_else.
    destruct (norm (String c d)); [congruence | reflexivity]. }
  split; [|split; [|exact K]].
  - intros H. pose proof (getDomain_truthy env) as T. now rewrite H in T.
  - destruct (DOMAIN env) as [d|] eqn:E.
    + destruct (string_dec (norm d) "") as [Z | N].
      * assert (G : getDomain env = "example.com").
        { unfold getDomain. rewrite E, Z. now destruct (JS.truthy d). }
        rewrite G. vm_compute. reflexivity.
      * rewrite (K d eq_refl N). apply norm_idem.
    + assert (G : getDomain env = "example.com").
      { unfold getDomain. now rewrite E. }
      rewrite G. vm_compute. reflexivity.
Qed.

Lemma getDomain_normalized_witness :
  getDomain (mkEnv (Some " Example.COM ") (mkD1 [] no_fault no_fault))
  = "example.com".
Proof.
  refine (eq_trans
            (proj2 (proj2 (getDomain_normalized
                             (mkEnv (Some " Example.COM ") (mkD1 [] no_fault no_fault))))
               " Example.COM " eq_refl _) _).
  - vm_compute. discriminate.
  - vm_compute. reflexivity.
Defined.

(* ------------------------------------------------------------------ *)
(** ** The row written to [email_logs] *)

Lemma substring_0_split (k : nat) (s : string) :
  exists rest,
    s = substring 0 k s ++ rest
    /\ String.length (substring 0 k s) = Nat.min k (String.length s).
Proof.
  revert s. induction k as [|k IH]; intros s.
  - exists s. destruct s; now split.
  - destruct s as [|c s]; [now exists ""|].
    destruct (IH s) as [rest [E L]]. exists rest. simpl. split.
    + now rewrite <- E.
    + now rewrite L.
Qed.

Lemma slice_0_split (s : string) (n : Z) :
  0 <= n ->
  exists rest, s = JS.slice s 0 n ++ rest
               /\ JS.len (JS.slice s 0 n) = Z.min n (JS.len s).
Proof.
  intros N. unfold JS.slice, JS.clampIndex.
  pose proof (JSFacts.len_nonneg s) as Ls.
  destruct (0 <? 0) eqn:E0; [lia|].
  destruct (n <? 0) eqn:E1; [apply Z.ltb_lt in E1; lia|].
  rewrite (Z.min_l 0) by lia. rewrite Z.sub_0_r.
  change (Z.to_nat 0) with 0%nat.
  destruct (substring_0_split (Z.to_nat (Z.min n (JS.len s))) s) as [rest [E L]].
  exists rest. split; [exact E|].
  unfold JS.len in *. rewrite L. lia.
Qed.

(** X11. The row bound to the INSERT: its [ts] is the clock in
    whole seconds, rounded down; no text column ever holds the empty
    string (an empty or absent value is stored as NULL); and the [error]
    column is the entry's error text cut to its first 2000 units. *)
Theorem logRow_columns (rt : Runtime) (e : Entry.t) :
  let row := logRow rt e in
  1000 * LogRow.ts row <= now rt < 1000 * LogRow.ts row + 1000
  /\ LogRow.size_bytes row = Entry.size e
  /\ ~ In (Some "")
          [LogRow.message_id row; LogRow.from_addr row; LogRow.to_addr row;
           LogRow.route row; LogRow.base_addr row; LogRow.dest_addr row;
           LogRow.result row; LogRow.error row]
  /\ (forall s, LogRow.error row = Some s ->
        JS.len s <= 2000
        /\ exists rest, Entry.error e = Some (s ++ rest)
                        /\ (rest <> "" -> JS.len s = 2000))
  /\ (forall s, Entry.error e = Some s -> s <> "" -> LogRow.error row <> None).
Proof.
  intros row. subst row. unfold logRow.
  cbn [LogRow.ts LogRow.size_bytes LogRow.message_id LogRow.from_addr
       LogRow.to_addr LogRow.route LogRow.base_addr LogRow.dest_addr
       LogRow.result LogRow.error].
  assert (ON : forall v, or_null v <> Some "").
  { intros [|c v]; cbn; [discriminate|]. intros H. inversion H. }
  assert (OO : forall v, opt_or_null v <> Some "").
  { intros [v|]; [apply ON | discriminate]. }
  split; [|split; [reflexivity|split; [|split]]].
  - pose proof (Z.div_mod (now rt) 1000 ltac:(lia)).
    pose proof (Z.mod_pos_bound (now rt) 1000 ltac:(lia)). lia.
  - intros H. simpl in H.
    destruct H as [H | [H | [H | [H | [H | [H | [H | [H | []]]]]]]]];
      try (revert H; first [apply ON | apply OO]).
    destruct (Entry.error e) as [err|]; [|discriminate].
    destruct err as [|c err]; [discriminate|]. cbn [JS.truthy] in H.
    destruct (slice_0_split (String c err) 2000 ltac:(lia)) as [rest [E L]].
    injection H as H. rewrite H in L.
    rewrite JSFacts.len_cons in L. pose proof (JSFacts.len_nonneg err).
    cbn in L. lia.
  - intros s H.
    destruct (Entry.error e) as [err|]; [|discriminate].
    destruct (JS.truthy err); [|discriminate]. injection H as <-.
    destruct (slice_0_split err 2000 ltac:(lia)) as [rest [E L]].
    split; [lia|]. exists rest. split; [now rewrite <- E|].
    intros R. rewrite E in L at 2. rewrite JSFacts.len_append in L.
    assert (0 < JS.len rest).
    { destruct rest; [congruence|]. rewrite JSFacts.len_cons.
      pose proof (JSFacts.len_nonneg rest). lia. }
    lia.
  - intros s -> N. destruct s; [congruence|]. discriminate.
Qed.

Lemma logRow_columns_witness :
  LogRow.error
    (logRow sampleRuntime
       (Entry.mk "" "a@b.c" "x@example.com" 7 "example.com" "none" None None
          "rejected" (Some "no matching alias or plus-base alias found")))
  <> None.
Proof.
  refine (proj2 (proj2 (proj2 (proj2
            (logRow_columns sampleRuntime
               (Entry.mk "" "a@b.c" "x@example.com" 7 "example.com" "none" None None
                  "rejected" (Some "no matching alias or plus-base alias found"))))))
            _ eq_refl _).
  discriminate.
Defined.

(** X12. Every key the handler looks up in the alias store is
    an address of the worker's own domain: some local part, an [@] and
    the worker's domain.  Aliases of other domains are never queried. *)
Theorem lookups_within_domain (rt : Runtime) (message : EmailMessage) (env : Env) :
  Forall (fun key => exists p, key = p ++ "@" ++ getDomain env)
         (lookups (trace (email rt message env))).
Proof.
  destruct (email_anatomy rt message env) as [keys [fw [e [rj [E [H K]]]]]].
  rewrite E, trace_pair, lookups_selects.
  assert (L : lookups (fw ++ logged rt env e ++ rj) = []).
  { destruct H; reflexivity. }
  rewrite L, app_nil_r.
  assert (F : accepted message env ->
              exists p, full (splitAddress (to message)) = p ++ "@" ++ getDomain env).
  { intros [A1 A2].
    destruct (splitAddress_valid _ A1) as [p [q [En [_ [_ S]]]]].
    rewrite S in A2 |- *. simpl in A2 |- *. subst q. now exists p. }
  destruct K as [-> | [[A ->] | [A [base [P ->]]]]].
  - constructor.
  - constructor; [now apply F | constructor].
  - constructor; [now apply F|]. constructor; [|constructor].
    apply plusBase_some in P as [p [q [_ [_ ->]]]].
    destruct A as [_ ->]. now exists p.
Qed.

(* ================================================================== *)
(** * The API worker *)

Section ApiFacts.
Import Api.

Lemma includes_occurs (c : ascii) (s : string) :
  includes c s = true <-> JS.occurs c s.
Proof.
  induction s as [|d r IH]; simpl; [intuition discriminate|].
  rewrite orb_true_iff, IH, Ascii.eqb_eq. tauto.
Qed.

Lemma toEmail_normal (v : Json) (a : string) :
  toEmail v = Returned a -> norm a = a.
Proof.
  unfold toEmail. destruct (truthy v).
  - destruct v; try discriminate. intros H. injection H as <-. apply norm_idem.
  - intros H. injection H as <-. vm_compute. reflexivity.
Qed.

Lemma clashes_false (key : string) (t : Table) :
  clashes key t = false ->
  Forall (fun r => address (alias r) <> key) t.
Proof.
  unfold clashes. induction t as [|r t IH]; simpl; [constructor|].
  intros H. apply orb_false_elim in H as [H1 H2].
  constructor; [|now apply IH].
  intros E. unfold Sqlite.equal in H1. rewrite E, String.eqb_refl in H1.
  discriminate.
Qed.

Lemma clashes_self (key : string) (t : Table) (r : AliasRecord) :
  address (alias r) = key -> clashes key (t ++ [r])%list = true.
Proof.
  intros <-. unfold clashes. rewrite existsb_app. cbn [existsb].
  unfold Sqlite.equal at 2. rewrite String.eqb_refl. now rewrite orb_true_r.
Qed.

(** The successful run of [createAlias], taken apart. *)
Lemma createAlias_created (rt : Runtime) (fault : option string) (t t' : Table)
    (body : Body) (a f : string) (n : option string) (ap : Z) :
  createAlias rt fault t body = (Returned (Created a f n ap), t') ->
  exists da df dn dap,
    body = Props da df dn dap
    /\ toEmail da = Returned a /\ toEmail df = Returned f
    /\ a <> "" /\ f <> ""
    /\ JS.occurs "@" a /\ JS.occurs "@" f
    /\ (ap = 0 \/ ap = 1)
    /\ (dap = Undefined -> ap = 1)
    /\ clashes a t = false
    /\ t' = (t ++ [mkRecord (mkAlias a f ap) n (now rt / 1000)])%list.
Proof.
  unfold createAlias. destruct body as [| |da df dn dap]; try discriminate.
  destruct (toEmail da) as [a0|] eqn:Ea; [|discriminate].
  destruct (toEmail df) as [f0|] eqn:Ef; [|discriminate].
  destruct (negb (JS.truthy a0) || negb (JS.truthy f0)) eqn:R; [discriminate|].
  destruct (negb (includes "@" a0) || negb (includes "@" f0)) eqn:V; [discriminate|].
  unfold insertAlias. destruct fault; [discriminate|]. cbn [alias address].
  destruct (clashes a0 t) eqn:C; [discriminate|].
  intros H. injection H as <- <- <- <- <-.
  apply orb_false_elim in R as [R1 R2]. apply orb_false_elim in V as [V1 V2].
  apply negb_false_iff in R1, R2, V1, V2.
  exists da, df, dn, dap. repeat split; trivial.
  - intros ->. discriminate.
  - intros ->. discriminate.
  - now apply includes_occurs.
  - now apply includes_occurs.
  - destruct dap; try (destruct (truthy _)); auto.
  - now intros ->.
Qed.

Lemma find_created (t : Table) (r : AliasRecord) :
  clashes (address (alias r)) t = false ->
  find (fun x => Sqlite.equal (address x) (address (alias r)))
       (aliasRows (t ++ [r])%list)
  = Some (alias r).
Proof.
  unfold clashes, aliasRows. rewrite map_app.
  induction t as [|x t IH]; cbn [existsb map app find]; intros C.
  - unfold Sqlite.equal. now rewrite String.eqb_refl.
  - apply orb_false_elim in C as [C1 C2]. rewrite C1. now apply IH.
Qed.

End ApiFacts.

(** X13. [createAlias] keeps the alias table well formed and
    changes it on success only: if every stored address and destination
    is in normal form with an [@], every flag 0 or 1 and no address twice,
    the same holds afterwards; the table is either unchanged or has
    gained the one row that the 200 response reports, stamped with the
    clock in whole seconds. *)
Theorem createAlias_keeps_table (rt : Runtime) (fault : option string)
    (t : Api.Table) (body : Api.Body) :
  Api.wellFormed t ->
  Api.wellFormed (snd (Api.createAlias rt fault t body))
  /\ (snd (Api.createAlias rt fault t body) = t
      /\ (forall a f n ap,
            fst (Api.createAlias rt fault t body)
            <> Api.Returned (Api.Created a f n ap))
      \/ exists a f n ap,
           fst (Api.createAlias rt fault t body)
           = Api.Returned (Api.Created a f n ap)
           /\ snd (Api.createAlias rt fault t body)
              = (t ++ [Api.mkRecord (mkAlias a f ap) n (now rt / 1000)])%list).
Proof.
  intros [WF ND].
  destruct (Api.createAlias rt fault t body) as [out t'] eqn:E.
  destruct out as [[a f n ap | st msg] | e].
  - destruct (createAlias_created _ _ _ _ _ _ _ _ _ E)
      as [da [df [dn [dap [_ [Ea [Ef [_ [_ [Oa [Of [AP [_ [C ->]]]]]]]]]]]]]].
    cbn [fst snd]. split.
    + split.
      * apply Forall_app. split; [exact WF|]. constructor; [|constructor].
        cbn. repeat split; trivial; eapply toEmail_normal; eassumption.
      * rewrite map_app. cbn.
        apply clashes_false in C.
        assert (N : ~ In a (map (fun r => address (Api.alias r)) t)).
        { intros I. apply in_map_iff in I as [r [Er Ir]].
          rewrite Forall_forall in C. now apply (C r Ir). }
        clear - ND N. induction ND as [|x l Nx _ IH]; cbn.
        -- constructor; [intros []|constructor].
        -- constructor.
           ++ rewrite in_app_iff. cbn. intros [I | [I | []]]; [tauto|].
              apply N. now left.
           ++ apply IH. intros I. apply N. now right.
    + right. now exists a, f, n, ap.
  - assert (t' = t).
    { revert E. unfold Api.createAlias.
      destruct body; try (intros H; now injection H).
      destruct (Api.toEmail address0); [|intros H; now injection H].
      destruct (Api.toEmail forward_to0); [|intros H; now injection H].
      destruct (_ || _); [intros H; now injection H|].
      destruct (_ || _); [intros H; now injection H|].
      destruct (Api.insertAlias _ _ _); intros H; [discriminate | now injection H]. }
    subst t'. cbn [fst snd]. split; [now split|]. left. split; [reflexivity|].
    intros; discriminate.
  - assert (t' = t).
    { revert E. unfold Api.createAlias.
      destruct body; try (intros H; now injection H).
      destruct (Api.toEmail address0); [|intros H; now injection H].
      destruct (Api.toEmail forward_to0); [|intros H; now injection H].
      destruct (_ || _); [intros H; discriminate|].
      destruct (_ || _); [intros H; discriminate|].
      destruct (Api.insertAlias _ _ _); intros H; discriminate. }
    subst t'. cbn [fst snd]. split; [now split|]. left. split; [reflexivity|].
    intros; discriminate.
Qed.

Lemma createAlias_keeps_table_witness :
  Api.wellFormed
    (snd (Api.createAlias sampleRuntime None []
            (Api.Props (Api.Str " Hello@Example.com") (Api.Str "You@Inbox.Example.net")
               Api.Null (Api.Bool false)))).
Proof.
  refine (proj1 (createAlias_keeps_table sampleRuntime None []
                   (Api.Props (Api.Str " Hello@Example.com")
                      (Api.Str "You@Inbox.Example.net") Api.Null (Api.Bool false)) _)).
  split; constructor.
Defined.

(** X14. An alias created through the API is the one the email
    worker finds.  After a 200 response for address [a] and destination
    [f], a message whose recipient normalizes to [a] (any letter case,
    any padding), handled by an email worker of that domain over the
    resulting table, is looked up once, under [a], and resolved to the
    new row: it is forwarded to [f] when [f] is outside the worker's
    domain and the transport accepts it, and rejected as a routing loop
    when [f] is inside. *)
Theorem created_alias_is_routed (rt : Runtime) (fault : option string)
    (t t' : Api.Table) (body : Api.Body) (a f : string) (n : option string) (ap : Z)
    (rt' : Runtime) (message : EmailMessage) (env : Env) :
  Api.createAlias rt fault t body = (Api.Returned (Api.Created a f n ap), t') ->
  aliases (DB env) = Api.aliasRows t' ->
  select_fault (DB env) a = None ->
  accepted message env ->
  norm (to message) = a ->
  let run := email rt' message env in
  resolvesExact message env (mkAlias a f ap)
  /\ lookups (trace run) = [a]
  /\ (wouldLoop f env = false -> forward_fault message f = None ->
      transport (trace run) = [Forward f true])
  /\ (wouldLoop f env = true ->
      transport (trace run) = [SetReject "550 Routing loop detected"]).
Proof.
  intros C T S A N run. subst run.
  destruct (createAlias_created _ _ _ _ _ _ _ _ _ C)
    as [da [df [dn [dap [_ [_ [_ [_ [_ [_ [_ [_ [_ [Cl ->]]]]]]]]]]]]]].
  assert (R : resolvesExact message env (mkAlias a f ap)).
  { split; [exact A|]. rewrite full_splitAddress, N. split; [exact S|].
    unfold aliasOf. rewrite T.
    apply (find_created t (Api.mkRecord (mkAlias a f ap) n (now rt / 1000))).
    exact Cl. }
  split; [exact R|].
  rewrite (email_exact _ _ _ _ R), full_splitAddress, N, trace_pair.
  cbn [lookups transport]. rewrite deliver_lookups.
  split; [reflexivity|]. split.
  - intros W F. now rewrite deliver_forwarded.
  - intros W. now rewrite deliver_loop.
Qed.

Lemma created_alias_is_routed_witness :
  transport
    (trace (email sampleRuntime (inbound "HELLO@example.com")
              (sampleEnv [mkAlias "hello@example.com" "you@inbox.example.net" 0])))
  = [Forward "you@inbox.example.net" true].
Proof.
  refine (proj1 (proj2 (proj2
            (created_alias_is_routed sampleRuntime None []
               [Api.mkRecord (mkAlias "hello@example.com" "you@inbox.example.net" 0)
                  None 1730000000]
               (Api.Props (Api.Str " Hello@Example.com")
                  (Api.Str "You@Inbox.Example.net") Api.Null (Api.Bool false))
               "hello@example.com" "you@inbox.example.net" None 0
               sampleRuntime (inbound "HELLO@example.com")
               (sampleEnv [mkAlias "hello@example.com" "you@inbox.example.net" 0])
               _ _ _ _ _))) _ _).
  - vm_compute. reflexivity.
  - reflexivity.
  - reflexivity.
  - split; vm_compute; [discriminate | reflexivity].
  - vm_compute. reflexivity.
  - vm_compute. reflexivity.
  - reflexivity.
Defined.



(** X16. An address can be created once.  After a 200 response
    for address [a], a second request whose address normalizes to [a]
    (whatever its letter case, padding, destination, notes or flag, and
    whether or not the database is otherwise healthy) is answered 409
    [Alias already exists] and leaves the table as it was. *)
Theorem createAlias_twice_conflicts (rt rt' : Runtime) (fault fault' : option string)
    (t t' : Api.Table) (body : Api.Body) (a f : string) (n : option string) (ap : Z)
    (da df dn dap : Api.Json) (f' : string) :
  Api.createAlias rt fault t body = (Api.Returned (Api.Created a f n ap), t') ->
  Api.toEmail da = Api.Returned a ->
  Api.toEmail df = Api.Returned f' ->
  JS.occurs "@" f' ->
  Api.createAlias rt' fault' t' (Api.Props da df dn dap)
  = (Api.Returned (Api.Failure 409 "Alias already exists"), t').
Proof.
  intros C Ea Ef Of.
  destruct (createAlias_created _ _ _ _ _ _ _ _ _ C)
    as [_ [_ [_ [_ [_ [_ [_ [Na [_ [Oa [_ [_ [_ [_ ->]]]]]]]]]]]]]].
  unfold Api.createAlias. rewrite Ea, Ef.
  assert (Ta : JS.truthy a = true) by (destruct a; [congruence | reflexivity]).
  assert (Tf : JS.truthy f' = true) by (destruct f'; [contradiction | reflexivity]).
  rewrite Ta, Tf. cbn [negb orb].
  rewrite (proj2 (includes_occurs "@" a) Oa), (proj2 (includes_occurs "@" f') Of).
  cbn [negb orb]. unfold Api.insertAlias.
  destruct fault'; [reflexivity|]. cbn [Api.alias address].
  now rewrite (clashes_self a t (Api.mkRecord (mkAlias a f ap) n (now rt / 1000))).
Qed.

Lemma createAlias_twice_conflicts_witness :
  Api.createAlias sampleRuntime None
    [Api.mkRecord (mkAlias "hello@example.com" "you@inbox.example.net" 1) None 1730000000]
    (Api.Props (Api.Str "HELLO@EXAMPLE.COM ") (Api.Str "other@inbox.example.net")
       Api.Undefined Api.Undefined)
  = (Api.Returned (Api.Failure 409 "Alias already exists"),
     [Api.mkRecord (mkAlias "hello@example.com" "you@inbox.example.net" 1) None 1730000000]).
Proof.
  refine (createAlias_twice_conflicts sampleRuntime sampleRuntime None None []
            [Api.mkRecord (mkAlias "hello@example.com" "you@inbox.example.net" 1)
               None 1730000000]
            (Api.Props (Api.Str "hello@example.com") (Api.Str "you@inbox.example.net")
               Api.Undefined Api.Undefined)
            "hello@example.com" "you@inbox.example.net" None 1
            (Api.Str "HELLO@EXAMPLE.COM ") (Api.Str "other@inbox.example.net")
            Api.Undefined Api.Undefined "other@inbox.example.net" _ _ _ _).
  - vm_compute. reflexivity.
  - vm_compute. reflexivity.
  - vm_compute. reflexivity.
  - vm_compute. intuition discriminate.
Defined.

(** X17. The LIMIT bound by [listEmailLogs] is always between 1
    and 500, whatever the [limit] parameter holds; it is 50 when the
    parameter is absent, empty or does not start with a number, and a
    numeral from 1 to 500 is taken as it is. *)
Theorem logLimit_bounds (rawLimit : option string) :
  1 <= Api.logLimit rawLimit <= 500
  /\ (rawLimit = None \/ rawLimit = Some "" -> Api.logLimit rawLimit = 50)
  /\ (forall s, rawLimit = Some s -> Api.parseInt s = Api.NaN -> s <> "" ->
                Api.logLimit rawLimit = 50)
  /\ (forall s n, rawLimit = Some s -> Api.parseInt s = Api.Finite n ->
                  1 <= n <= 500 -> Api.logLimit rawLimit = n).
Proof.
  assert (D : Api.parseInt "50" = Api.Finite 50) by (vm_compute; reflexivity).
  split; [|split; [|split]].
  - unfold Api.logLimit. set (p := Api.parseInt _).
    destruct p as [| |n]; [change (1 <= 50 <= 500); lia .. |].
    cbv zeta. destruct (n <=? 0) eqn:E; [change (1 <= 50 <= 500); lia|].
    apply Z.leb_gt in E.
    destruct (500 <? n) eqn:E'; [lia|]. apply Z.ltb_ge in E'. lia.
  - intros [-> | ->]; unfold Api.logLimit; cbn [JS.or_else JS.truthy];
      rewrite D; reflexivity.
  - intros s -> P N. unfold Api.logLimit, JS.or_else.
    destruct s; [congruence|]. cbn [JS.truthy]. now rewrite P.
  - intros s n -> P B. unfold Api.logLimit, JS.or_else.
    destruct s as [|c s]; [vm_compute in P; discriminate|].
    cbn [JS.truthy]. rewrite P.
    destruct (n <=? 0) eqn:E; [apply Z.leb_le in E; lia|].
    destruct (500 <? n) eqn:E'; [apply Z.ltb_lt in E'; lia | reflexivity].
Qed.

Lemma logLimit_bounds_witness :
  Api.logLimit (Some " 120 rows") = 120
  /\ Api.logLimit (Some "ten") = 50
  /\ Api.logLimit None = 50.
Proof.
  split; [|split].
  - refine (proj2 (proj2 (proj2 (logLimit_bounds (Some " 120 rows"))))
              " 120 rows" 120 eq_refl _ _); [vm_compute; reflexivity | lia].
  - refine (proj1 (proj2 (proj2 (logLimit_bounds (Some "ten"))))
              "ten" eq_refl _ _); [vm_compute; reflexivity | discriminate].
  - exact (proj1 (proj2 (logLimit_bounds None)) (or_introl eq_refl)).
Defined.

(* ================================================================== *)
(** * The command-line tool *)








